(** * ZigZin toolchain: NFA to DFA conversion

    A shallow embedding of [toolchain/nfa_dfa_conversion.py] and the
    properties of its subset construction, its epsilon closure, its move
    operator, its transition-table reader and writer, its alphabet and
    accept-table functions and its main program, and of the expansion of
    labels in [toolchain/jff_to_transitions_csv.py].

    Python values are modelled as follows.
    - [int] is [Z]; DFA state ids, which the code draws from
      [len(dfa_states)], are [nat].
    - [str] is [string], one [ascii] per code point (text in the Latin-1
      range); [None] as an input symbol is [None : option string].
    - The NFA's dictionaries are only ever read by key, so they are finite
      maps ([gmap]).  The DFA's dictionaries are written out in insertion
      order, so they are association lists in insertion order.
    - [set] and [frozenset] of [int] are the interface [PySet] below: a
      value has a mathematical content ([elems]), which decides membership,
      equality and hashing, and an iteration order ([pyset_iter]), about
      which Python promises nothing beyond visiting every element once.
    - A [while] loop is a function with a bound on its iterations, [None]
      when the bound is too small; each loop is shown to end. *)

From Stdlib Require Import ZArith String Ascii List Lia.

From Stdlib Require Import Decimal DecimalString DecimalNat.

From stdpp Require Import base option list sorting gmap strings fin_sets fin_maps.

Local Open Scope string_scope.

Local Open Scope Z_scope.

Local Open Scope list_scope.

(** ** Python sets of integers *)

Class PySet := {
  pyset : Type;
  (** the mathematical set a value stands for *)
  elems : pyset → gset Z;
  (** the order in which [for x in s] and [list(s)] visit it *)
  pyset_iter : pyset → list Z;
  (** [set()] *)
  pyset_empty : pyset;
  (** [s.add(x)] *)
  pyset_add : Z → pyset → pyset;
  (** [set(s)] and [frozenset(s)] of a set [s] *)
  pyset_copy : pyset → pyset;
  (** [s & t] *)
  pyset_inter : pyset → pyset → pyset;
  pyset_iter_NoDup s : NoDup (pyset_iter s);
  elem_of_pyset_iter s x : x ∈ pyset_iter s ↔ x ∈ elems s;
  elems_empty : elems pyset_empty = ∅;
  elems_add x s : elems (pyset_add x s) = {[x]} ∪ elems s;
  elems_copy s : elems (pyset_copy s) = elems s;
  elems_inter s t : elems (pyset_inter s t) = elems s ∩ elems t;
}.

(** [x in s] *)
Definition pyset_contains `{PySet} (x : Z) (s : pyset) : bool :=
  bool_decide (x ∈ elems s).

(** truth value of a set: [if s], [not s] *)
Definition pyset_truthy `{PySet} (s : pyset) : bool :=
  bool_decide (elems s ≠ ∅).

(** [set(iterable)] for an iterable that is not itself a set *)
Definition pyset_of_list `{PySet} (l : list Z) : pyset :=
  fold_left (λ s x, pyset_add x s) l pyset_empty.

(** An implementation that iterates in ascending order of the elements. *)
Definition sorted_iter (s : gset Z) : list Z := merge_sort Z.le (elements s).

#[export] Program Instance SortedSet : PySet := {|
  pyset := gset Z;
  elems s := s;
  pyset_iter := sorted_iter;
  pyset_empty := ∅;
  pyset_add x s := {[x]} ∪ s;
  pyset_copy s := s;
  pyset_inter s t := s ∩ t;
|}.
Next Obligation.
  intros s. unfold sorted_iter. rewrite merge_sort_Permutation.
  apply NoDup_elements.
Qed.
Next Obligation.
  intros s x. unfold sorted_iter. rewrite merge_sort_Permutation.
  apply elem_of_elements.
Qed.
Solve All Obligations with done.

(** An implementation that iterates in insertion order.  The carrier is the
    list of insertions, oldest first. *)
Definition insertion_iter (l : list Z) : list Z :=
  reverse (remove_dups (reverse l)).

Definition insertion_add (x : Z) (l : list Z) : list Z :=
  if decide (x ∈ l) then l else l ++ [x].

#[export] Program Instance InsertionSet : PySet := {|
  pyset := list Z;
  elems l := list_to_set l;
  pyset_iter := insertion_iter;
  pyset_empty := [];
  pyset_add := insertion_add;
  pyset_copy l := l;
  pyset_inter l k := filter (λ x, x ∈ k) l;
|}.
Next Obligation.
  intros l. unfold insertion_iter. rewrite reverse_Permutation.
  apply NoDup_remove_dups.
Qed.
Next Obligation.
  intros l x. unfold insertion_iter.
  rewrite elem_of_reverse, elem_of_remove_dups, elem_of_reverse.
  by rewrite elem_of_list_to_set.
Qed.
Next Obligation. done. Qed.
Next Obligation.
  intros x l. unfold insertion_add. apply set_eq. intros y.
  case_decide; rewrite ?list_to_set_app_L; set_solver.
Qed.
Next Obligation. done. Qed.
Next Obligation.
  intros l k. apply set_eq. intros y.
  rewrite elem_of_list_to_set, list_elem_of_filter. set_solver.
Qed.

(** ** The automata *)

(** [class NFA]: [transitions] maps [(state, symbol)], with [None] for an
    epsilon move, to the list of targets. *)
Record NFA := mkNFA {
  nfa_transitions : gmap (Z * option string) (list Z);
  nfa_start : Z;
  nfa_accept : gmap Z string;
}.

(** [class DFA]: both dictionaries in insertion order. *)
Record DFA := mkDFA {
  dfa_trans : list ((nat * string) * nat);
  dfa_start : nat;
  dfa_acc : list (nat * string);
}.

(** [d.get(key, [])] *)
Definition targets (nfa : NFA) (state : Z) (symbol : option string) : list Z :=
  default [] (nfa_transitions nfa !! (state, symbol)).

(** [d[k] = v] on a dictionary kept in insertion order: an existing key
    keeps its place. *)
Fixpoint dict_set {K V} `{EqDecision K} (k : K) (v : V) (d : list (K * V))
  : list (K * V) :=
  match d with
  | [] => [(k, v)]
  | (k', v') :: d' =>
      if decide (k = k') then (k, v) :: d' else (k', v') :: dict_set k v d'
  end.

(** [d.get(k)] on such a dictionary *)
Fixpoint dict_get {K V} `{EqDecision K} (k : K) (d : list (K * V)) : option V :=
  match d with
  | [] => None
  | (k', v') :: d' => if decide (k = k') then Some v' else dict_get k d'
  end.

Section conversion.
Context `{PS : PySet}.

(** ** epsilon_closure *)

(** The body of [for next_state in next_states].  The stack is kept top
    first: [stack.append] is a cons and [stack.pop()] takes the head. *)
Definition closure_visit (acc : pyset * list Z) (next_state : Z)
  : pyset * list Z :=
  if pyset_contains next_state acc.1 then acc
  else (pyset_add next_state acc.1, next_state :: acc.2).

(** [while stack: ...], at most [fuel] iterations. *)
Fixpoint epsilon_closure_loop (nfa : NFA) (fuel : nat)
    (closure : pyset) (stack : list Z) {struct fuel} : option pyset :=
  match stack with
  | [] => Some closure
  | state :: stack =>
      match fuel with
      | O => None
      | S fuel =>
          let next_states := targets nfa state None in
          let acc := fold_left closure_visit next_states (closure, stack) in
          epsilon_closure_loop nfa fuel acc.1 acc.2
      end
  end.

(** Every target of an epsilon transition of the automaton. *)
Definition epsilon_targets (nfa : NFA) : gset Z :=
  map_fold (λ key tos acc,
              match key.2 with
              | None => list_to_set tos ∪ acc
              | Some _ => acc
              end) ∅ (nfa_transitions nfa).

(** A number of iterations the loop never exceeds: every iteration pops one
    state, and a state is pushed only when it enters the closure. *)
Definition closure_fuel (nfa : NFA) (states : pyset) : nat :=
  (length (pyset_iter states) + size (epsilon_targets nfa))%nat.

(** [epsilon_closure]: the loop, started on [set(states)] and
    [list(states)], with the iterations of [closure_fuel].  The loop always
    ends within them ([epsilon_closure_terminates] below), so the [default]
    is never used. *)
Definition epsilon_closure (nfa : NFA) (states : pyset) : pyset :=
  let closure := pyset_copy states in
  let stack := reverse (pyset_iter states) in
  default closure
    (epsilon_closure_loop nfa (closure_fuel nfa states) closure stack).

(** ** move_nfa *)

(** [result = set()], then [result.add(next_state)] for every target of
    every state, in the order in which [states] iterates. *)
Definition move_nfa (nfa : NFA) (states : pyset) (symbol : string) : pyset :=
  fold_left
    (λ result state,
       fold_left (λ result next_state, pyset_add next_state result)
                 (targets nfa state (Some symbol)) result)
    (pyset_iter states) pyset_empty.

(** ** convert_nfa_to_dfa *)

(** The local variables of [convert_nfa_to_dfa].  [state_mapping] is keyed
    by frozensets, which hash and compare by content. *)
Record build := mkBuild {
  dfa_transitions : list ((nat * string) * nat);
  dfa_accept : list (nat * string);
  state_mapping : gmap (gset Z) nat;
  dfa_states : list pyset;
  queue : list nat;
}.

(** [[nfa.accept[s] for s in closure if s in nfa.accept]] *)
Definition accept_labels (nfa : NFA) (closure : pyset) : list string :=
  omap (λ s, nfa_accept nfa !! s) (pyset_iter closure).

(** [set(nfa.accept.keys())] *)
Definition nfa_accept_set (nfa : NFA) : pyset :=
  pyset_of_list (map fst (map_to_list (nfa_accept nfa))).

(** [if closure & nfa_accept_set: dfa_accept[index] = ", ".join(labels)] *)
Definition record_accept (nfa : NFA) (index : nat) (closure : pyset)
    (dfa_accept : list (nat * string)) : list (nat * string) :=
  if pyset_truthy (pyset_inter closure (nfa_accept_set nfa))
  then dict_set index (String.concat ", " (accept_labels nfa closure)) dfa_accept
  else dfa_accept.

(** The state before the [while queue] loop. *)
Definition initial_build (nfa : NFA) : build :=
  let start_set := pyset_add (nfa_start nfa) pyset_empty in
  let start_closure := pyset_copy (epsilon_closure nfa start_set) in
  {| dfa_transitions := [];
     dfa_accept := record_accept nfa 0 start_closure [];
     state_mapping := {[ elems start_closure := 0%nat ]};
     dfa_states := [start_closure];
     queue := [0%nat] |}.

(** The body of [for symbol in alphabet]. *)
Definition process_symbol (nfa : NFA) (current_index : nat)
    (current_state_set : pyset) (b : build) (symbol : string) : build :=
  let move_set := move_nfa nfa (pyset_copy current_state_set) symbol in
  if negb (pyset_truthy move_set) then b
  else
    let next_closure := pyset_copy (epsilon_closure nfa move_set) in
    match state_mapping b !! elems next_closure with
    | Some next_index =>
        {| dfa_transitions :=
             dict_set (current_index, symbol) next_index (dfa_transitions b);
           dfa_accept := dfa_accept b;
           state_mapping := state_mapping b;
           dfa_states := dfa_states b;
           queue := queue b |}
    | None =>
        let next_index := length (dfa_states b) in
        {| dfa_transitions :=
             dict_set (current_index, symbol) next_index (dfa_transitions b);
           dfa_accept := record_accept nfa next_index next_closure (dfa_accept b);
           state_mapping := <[ elems next_closure := next_index ]> (state_mapping b);
           dfa_states := dfa_states b ++ [next_closure];
           queue := queue b ++ [next_index] |}
    end.

(** [current_index = queue.popleft()] *)
Definition popleft (rest : list nat) (b : build) : build :=
  {| dfa_transitions := dfa_transitions b;
     dfa_accept := dfa_accept b;
     state_mapping := state_mapping b;
     dfa_states := dfa_states b;
     queue := rest |}.

(** [while queue: ...], at most [fuel] iterations.  [None] is a run that
    needs more iterations, or an index outside [dfa_states]. *)
Fixpoint construction_loop (nfa : NFA) (alphabet : list string) (fuel : nat)
    (b : build) {struct fuel} : option build :=
  match queue b with
  | [] => Some b
  | current_index :: rest =>
      match fuel with
      | O => None
      | S fuel =>
          match dfa_states b !! current_index with
          | None => None
          | Some current_state_set =>
              construction_loop nfa alphabet fuel
                (fold_left (process_symbol nfa current_index current_state_set)
                           alphabet (popleft rest b))
          end
      end
  end.

(** The construction up to the [return]: the final values of the locals.
    [alphabet] is the sequence in which [for symbol in alphabet] yields the
    symbols. *)
Definition subset_construction (nfa : NFA) (alphabet : list string)
    (fuel : nat) : option build :=
  construction_loop nfa alphabet fuel (initial_build nfa).

(** [DFA(transitions=dfa_transitions, start=0, accept=dfa_accept)] *)
Definition dfa_of_build (b : build) : DFA :=
  {| dfa_trans := dfa_transitions b; dfa_start := 0%nat;
     dfa_acc := dfa_accept b |}.

Definition convert_nfa_to_dfa (nfa : NFA) (alphabet : list string)
    (fuel : nat) : option DFA :=
  dfa_of_build <$> subset_construction nfa alphabet fuel.

End conversion.

Arguments build : clear implicits.

(** ** read_nfa_transitions_csv *)

(** The characters [str.strip()] removes and [int()] tolerates around a
    number: those for which [str.isspace] holds. *)
Definition py_isspace (c : ascii) : bool :=
  let n := nat_of_ascii c in
  ((9 <=? n) && (n <=? 13) || (28 <=? n) && (n <=? 32)
   || (n =? 133) || (n =? 160))%nat.

Fixpoint lstrip (s : string) : string :=
  match s with
  | EmptyString => EmptyString
  | String c s' => if py_isspace c then lstrip s' else s
  end.

Fixpoint rstrip (s : string) : string :=
  match s with
  | EmptyString => EmptyString
  | String c s' =>
      match rstrip s' with
      | EmptyString => if py_isspace c then EmptyString else String c EmptyString
      | r => String c r
      end
  end.

(** [s.strip()] *)
Definition strip (s : string) : string := rstrip (lstrip s).

(** [s.startswith(p)] *)
Fixpoint startswith (p s : string) : bool :=
  match p, s with
  | EmptyString, _ => true
  | String a p', String b s' => if Ascii.eqb a b then startswith p' s' else false
  | String _ _, EmptyString => false
  end.

Definition is_digit (c : ascii) : bool :=
  let n := nat_of_ascii c in ((48 <=? n) && (n <=? 57))%nat.

Definition digit_value (c : ascii) : Z := Z.of_nat (nat_of_ascii c - 48).

(** The digits of a decimal literal: single underscores are allowed between
    two digits. *)
Fixpoint int_digits (s : string) (acc : Z) (after_digit : bool) : option Z :=
  match s with
  | EmptyString => if after_digit then Some acc else None
  | String c s' =>
      if is_digit c then int_digits s' (10 * acc + digit_value c) true
      else if Ascii.eqb c "_" && after_digit then int_digits s' acc false
      else None
  end.

(** [int(s)] on a string: optional whitespace around an optional sign and
    decimal digits; [None] is [ValueError].  The cap that recent CPython
    versions put on the number of digits is not modelled. *)
Definition py_int (s : string) : option Z :=
  match strip s with
  | String "+" s' => int_digits s' 0 false
  | String "-" s' => Z.opp <$> int_digits s' 0 false
  | s' => int_digits s' 0 false
  end.

(** [transitions.setdefault(key, []).append(to)] *)
Definition setdefault_append (key : Z * option string) (to : Z)
    (transitions : gmap (Z * option string) (list Z))
  : gmap (Z * option string) (list Z) :=
  <[ key := default [] (transitions !! key) ++ [to] ]> transitions.

(** [input_str[0] if input_str else None] *)
Definition first_symbol (input_str : string) : option string :=
  match input_str with
  | EmptyString => None
  | String c _ => Some (String c EmptyString)
  end.

(** The body of [for row in reader], for one row of fields. *)
Definition read_row (transitions : gmap (Z * option string) (list Z))
    (row : list string) : gmap (Z * option string) (list Z) :=
  match row with
  | [] => transitions
  | field0 :: _ =>
      if startswith "//" (strip field0) then transitions
      else
        match row with
        | [from_field; input_field; to_field] =>
            match py_int (strip from_field) with
            | None => transitions
            | Some frm =>
                let input_str := strip input_field in
                let symbol := first_symbol input_str in
                match py_int (strip to_field) with
                | None => transitions
                | Some to => setdefault_append (frm, symbol) to transitions
                end
            end
        | _ => transitions
        end
  end.

(** [read_nfa_transitions_csv], on the rows that [csv.reader] yields for the
    file. *)
Definition read_nfa_transitions_csv (rows : list (list string))
  : gmap (Z * option string) (list Z) :=
  fold_left read_row rows ∅.

(** ** get_alphabet_from_transitions *)

(** Python's order on [str]: by code points, a proper prefix first. *)
Definition str_le (s t : string) : Prop := String.leb s t = true.

#[export] Instance str_le_dec : RelDecision str_le.
Proof. intros s t. unfold str_le. apply _. Defined.

(** [sorted(l)] for strings. *)
Definition py_sorted (l : list string) : list string := merge_sort str_le l.

(** [{symbol for (_, symbol) in transitions.keys() if symbol is not None}] *)
Definition alphabet_set {V} (transitions : gmap (Z * option string) V)
  : gset string :=
  list_to_set (omap (λ entry, entry.1.2) (map_to_list transitions)).

(** [get_alphabet_from_transitions]: [sorted] of the set above, which it
    meets in the order in which the set iterates; [elements] is one such
    order, and the result is the same for every other. *)
Definition get_alphabet_from_transitions {V}
    (transitions : gmap (Z * option string) V) : list string :=
  py_sorted (elements (alphabet_set transitions)).

(** ** write_dfa_to_csv *)

(** [str(n)] for a state id: its decimal digits. *)
Definition py_str_nat (n : nat) : string :=
  DecimalString.NilZero.string_of_uint (Nat.to_uint n).

(** [write_dfa_to_csv]: the rows handed to [csv.writer], the header first.
    [str] of an input symbol, a string, is the symbol.  The text of the
    file is not modelled: a later [csv.reader] is taken to give back the
    rows that [csv.writer] was given. *)
Definition write_dfa_to_csv (dfa : DFA) : list (list string) :=
  ["From"; "Input"; "To"]
  :: map (λ entry, [py_str_nat entry.1.1; entry.1.2; py_str_nat entry.2])
         (dfa_trans dfa).

(** ** The main program: read, convert, write *)

(** [NFA(transitions, 0, accept)] on the transitions read from the rows. *)
Definition main_nfa (rows : list (list string)) (accept : gmap Z string)
  : NFA :=
  {| nfa_transitions := read_nfa_transitions_csv rows;
     nfa_start := 0;
     nfa_accept := accept |}.

(** [convert_nfa_to_dfa(nfa, alphabet=get_alphabet_from_transitions(transitions))]
    as the main program calls it. *)
Definition main_dfa `{PS : PySet} (rows : list (list string))
    (accept : gmap Z string) (fuel : nat) : option DFA :=
  let transitions := read_nfa_transitions_csv rows in
  convert_nfa_to_dfa (main_nfa rows accept)
    (get_alphabet_from_transitions transitions) fuel.

(** ** read_zigzin_states_types *)





(** ** jff_to_transitions_csv.py *)

(** [for c in s]: the characters of a string, each a string of length
    one. *)
Definition chars (s : string) : list string :=
  map (λ c, String c EmptyString) (list_ascii_of_string s).

(** [string.ascii_lowercase] *)
Definition ascii_lowercase : string := "abcdefghijklmnopqrstuvwxyz".

(** [string.ascii_uppercase] *)
Definition ascii_uppercase : string := "ABCDEFGHIJKLMNOPQRSTUVWXYZ".

(** The body of [for transition in root.iter('transition')] from the texts
    of the three elements, [None] for an element without text: the rows
    that it appends. *)
Definition jff_transition_rows (from_state to_state read : option string)
  : list (list (option string)) :=
  let read := if decide (read = None ∨ read = Some "") then None else read in
  if decide (read = Some "[0-9]") then
    map (λ c, [from_state; Some c; to_state]) (map py_str_nat (seq 0 10))
  else if decide (read = Some "[a-z]") then
    map (λ c, [from_state; Some c; to_state]) (chars ascii_lowercase)
  else if decide (read = Some "[A-Z]") then
    map (λ c, [from_state; Some c; to_state]) (chars ascii_uppercase)
  else [[from_state; read; to_state]].

(** A field as [csv.writer] writes it: nothing for [None]. *)
Definition csv_field (field : option string) : string := default "" field.

(** The rows handed to [csv.writer], the header first, from the texts
    (from, to, read) of the transitions in document order.  The text of the
    file is not modelled. *)
Definition jff_to_transitions_csv
    (jff : list (option string * option string * option string))
  : list (list string) :=
  ["From"; "Input"; "To"]
  :: map (map csv_field)
       (jff ≫= λ t, jff_transition_rows t.1.1 t.1.2 t.2).

(** * Specification

    The notions in which the properties of the program are stated. *)

(** ** Epsilon reachability *)

(** One epsilon move of the automaton. *)
Definition eps_step (nfa : NFA) (s x : Z) : Prop := x ∈ targets nfa s None.

(** No epsilon move leaves the set. *)
Definition eps_closed (nfa : NFA) (T : gset Z) : Prop :=
  ∀ s x, s ∈ T → eps_step nfa s x → x ∈ T.

(** Reachable from a member of [S] by epsilon moves alone. *)
Definition eps_reach (nfa : NFA) (S : gset Z) (x : Z) : Prop :=
  ∃ s, s ∈ S ∧ rtc (eps_step nfa) s x.

(** ** Bounds for the two loops *)

(** Every target of a transition of the automaton. *)
Definition all_targets (nfa : NFA) : gset Z :=
  map_fold (λ _ tos acc, list_to_set tos ∪ acc) ∅ (nfa_transitions nfa).

(** The states a run can meet: the start state and the targets. *)
Definition nfa_states (nfa : NFA) : gset Z := {[ nfa_start nfa ]} ∪ all_targets nfa.

(** All the subsets of the set of the members of a list. *)
Fixpoint subsets_of (l : list Z) : gset (gset Z) :=
  match l with
  | [] => {[ ∅ ]}
  | x :: l => subsets_of l ∪ set_map (λ T : gset Z, {[ x ]} ∪ T) (subsets_of l)
  end.

(** A number of iterations [while queue] never exceeds: one per set of
    NFA states. *)
Definition construction_fuel (nfa : NFA) : nat :=
  size (subsets_of (elements (nfa_states nfa))).

(** ** Labels, moves and the example automata *)

(** The StateSet of a DFA state meets the NFA's accept states. *)
Definition accepting (nfa : NFA) (T : gset Z) : Prop :=
  T ∩ dom (nfa_accept nfa) ≠ ∅.

(** The label the specification gives to a set of NFA states: the labels of
    its accept states, by ascending state id, joined with [", "]. *)
Definition merged_label_spec (nfa : NFA) (T : gset Z) : string :=
  String.concat ", "
    (omap (λ s, nfa_accept nfa !! s) (sorted_iter (T ∩ dom (nfa_accept nfa)))).

(** The union, over the states of [S], of their targets on [symbol]. *)
Definition move_union (nfa : NFA) (S : gset Z) (symbol : string) : gset Z :=
  ⋃ ((λ s, list_to_set (targets nfa s (Some symbol))) <$> elements S).

(** The automaton of the example in the module's closing comment. *)
Definition sample_nfa : NFA :=
  {| nfa_transitions :=
       list_to_map [((0, None), [1]); ((1, Some "a"), [2]);
                    ((2, None), [3]); ((3, Some "b"), [4])];
     nfa_start := 0;
     nfa_accept := {[ 4 := "accept" ]} |}.

(** An automaton whose start closure holds two accept states, met in
    descending order of their ids. *)
Definition descending_nfa : NFA :=
  {| nfa_transitions := {[ (8, None) := [1] ]};
     nfa_start := 8;
     nfa_accept := {[ 1 := "x"; 8 := "y" ]} |}.

(** Two entries of [dfa_accept] for the same id whose labels join the same
    labels, in whatever order. *)
Definition label_sim (e1 e2 : nat * string) : Prop :=
  e1.1 = e2.1
  ∧ ∃ labels1 labels2,
      labels1 ≡ₚ labels2
      ∧ e1.2 = String.concat ", " labels1
      ∧ e2.2 = String.concat ", " labels2.

(** ** Rows of the transition table *)

(** A comment row: its first field starts with [//]. *)
Definition is_comment_row (row : list string) : bool :=
  match row with
  | field0 :: _ => startswith "//" field0
  | [] => false
  end.

(** A row the specification has skipped: a comment, a column count other
    than three, or a From or To field that [int] rejects. *)
Definition malformed_row (row : list string) : bool :=
  is_comment_row row
  || match row with
     | [from_field; _; to_field] =>
         negb (bool_decide (is_Some (py_int from_field)))
         || negb (bool_decide (is_Some (py_int to_field)))
     | _ => true
     end.

(** The transition a well-formed row stands for. *)
Definition row_transition (row : list string)
  : option ((Z * option string) * Z) :=
  match row with
  | [from_field; input_field; to_field] =>
      frm ← py_int from_field;
      to ← py_int to_field;
      Some ((frm, first_symbol (strip input_field)), to)
  | _ => None
  end.

(** The targets that the rows give for one key, in the order of the rows. *)
Definition row_targets (key : Z * option string) (rows : list (list string))
  : list Z :=
  omap (λ row, match row_transition row with
               | Some (k, to) => if decide (k = key) then Some to else None
               | None => None
               end) rows.

(** ** Runs of the two loops *)

Section runs.
Context `{PS : PySet}.

(** The loop invariant of [while stack], for a run started on [S0]. *)
Record closure_inv (nfa : NFA) (S0 : gset Z) (c : pyset) (st : list Z) : Prop := {
  cinv_init : S0 ⊆ elems c;
  cinv_reach : ∀ x, x ∈ elems c → eps_reach nfa S0 x;
  cinv_stack : ∀ x, x ∈ st → x ∈ elems c;
  cinv_done : ∀ s x, s ∈ elems c → s ∉ st → eps_step nfa s x → x ∈ elems c;
}.

(** The quantity that drops by one at every iteration. *)
Definition closure_measure (nfa : NFA) (c : pyset) (st : list Z) : nat :=
  (length st + size (epsilon_targets nfa ∖ elems c))%nat.

(** What holds of the locals of [convert_nfa_to_dfa] at every point of the
    run. *)
Record build_inv (nfa : NFA) (b : build PS) : Prop := {
  binv_mapping : ∀ T i,
    state_mapping b !! T = Some i
    ↔ ∃ S, dfa_states b !! i = Some S ∧ elems S = T;
  binv_queue : ∀ i, i ∈ queue b → (i < length (dfa_states b))%nat;
  binv_accept : ∀ i S,
    dfa_states b !! i = Some S →
    dict_get i (dfa_accept b)
    = if decide (accepting nfa (elems S))
      then Some (String.concat ", " (accept_labels nfa S)) else None;
  binv_accept_fresh : ∀ i,
    (length (dfa_states b) ≤ i)%nat → dict_get i (dfa_accept b) = None;
}.

(** One step of the run: a [popleft], or one pass through the body of
    [for symbol in alphabet] for a state of [dfa_states]. *)
Inductive build_step (nfa : NFA) : build PS → build PS → Prop :=
  | step_popleft b current_index rest :
      queue b = current_index :: rest →
      build_step nfa b (popleft rest b)
  | step_symbol b current_index current_state_set symbol :
      dfa_states b !! current_index = Some current_state_set →
      build_step nfa b
        (process_symbol nfa current_index current_state_set b symbol).

(** The states of the locals that a run on [nfa] can pass through. *)
Definition reachable (nfa : NFA) (b : build PS) : Prop :=
  rtc (build_step nfa) (initial_build nfa) b.

(** The quantity that drops by one at every iteration of [while queue]:
    the queued ids and the sets of states not met so far. *)
Definition construction_measure (nfa : NFA) (b : build PS) : nat :=
  (length (queue b)
   + size (subsets_of (elements (nfa_states nfa)) ∖ dom (state_mapping b)))%nat.

End runs.

(** The locals with which a run of [fuel] iterations returns (those before
    the loop when it needs more). *)
Definition run_build `{PS : PySet} (nfa : NFA) (alphabet : list string)
    (fuel : nat) : build PS :=
  default (initial_build nfa) (subset_construction nfa alphabet fuel).

(** Two runs on the same automaton and the same sequence of symbols, each
    with its own implementation of sets. *)
Section two_runs.
Context (PS1 PS2 : PySet).

(** The two runs agree on everything but the representation of the state
    sets and the order of the labels joined in a label. *)
Record build_sim (b1 : build PS1) (b2 : build PS2) : Prop := {
  sim_transitions : dfa_transitions b1 = dfa_transitions b2;
  sim_accept : Forall2 label_sim (dfa_accept b1) (dfa_accept b2);
  sim_mapping : state_mapping b1 = state_mapping b2;
  sim_states :
    Forall2 (λ S1 S2, @elems PS1 S1 = @elems PS2 S2)
            (dfa_states b1) (dfa_states b2);
  sim_queue : queue b1 = queue b2;
}.

End two_runs.

Arguments build_sim {PS1 PS2} b1 b2.

(** ** What the automata accept *)

(** A run of the NFA: from a state, over a word, to a state, with epsilon
    moves anywhere in between. *)
Inductive nfa_path (nfa : NFA) : Z → list string → Z → Prop :=
  | path_done q : nfa_path nfa q [] q
  | path_eps q q' w r :
      eps_step nfa q q' → nfa_path nfa q' w r → nfa_path nfa q w r
  | path_symbol q a q' w r :
      q' ∈ targets nfa q (Some a) → nfa_path nfa q' w r →
      nfa_path nfa q (a :: w) r.

(** The NFA accepts a word: a run from the start state ends in an accept
    state. *)
Definition nfa_accepts (nfa : NFA) (w : list string) : Prop :=
  ∃ q, nfa_path nfa (nfa_start nfa) w q ∧ q ∈ dom (nfa_accept nfa).

(** A run of a DFA table; a missing key rejects. *)
Fixpoint dfa_run (transitions : list ((nat * string) * nat)) (state : nat)
    (w : list string) : option nat :=
  match w with
  | [] => Some state
  | a :: w =>
      match dict_get (state, a) transitions with
      | Some next => dfa_run transitions next w
      | None => None
      end
  end.

(** The DFA accepts a word: its run from the start state ends in a key of
    [accept]. *)
Definition dfa_accepts (dfa : DFA) (w : list string) : Prop :=
  ∃ state, dfa_run (dfa_trans dfa) (dfa_start dfa) w = Some state
           ∧ state ∈ map fst (dfa_acc dfa).

(** ** What every state of a run satisfies, beyond [build_inv] *)

Section run_notions.
Context `{PS : PySet}.

Record states_inv (nfa : NFA) (b : build PS) : Prop := {
  sinv_closed : ∀ i S, dfa_states b !! i = Some S → eps_closed nfa (elems S);
  sinv_nonempty : ∀ i S, dfa_states b !! i = Some S → elems S ≠ ∅;
  sinv_states : ∀ i S, dfa_states b !! i = Some S → elems S ⊆ nfa_states nfa;
  sinv_start : ∃ S0, dfa_states b !! 0%nat = Some S0
                     ∧ ∀ x, x ∈ elems S0 ↔ rtc (eps_step nfa) (nfa_start nfa) x;
  sinv_transitions : ∀ i a j,
    dict_get (i, a) (dfa_transitions b) = Some j →
    ∃ S S', dfa_states b !! i = Some S ∧ dfa_states b !! j = Some S'
            ∧ move_union nfa (elems S) a ≠ ∅
            ∧ ∀ x, x ∈ elems S' ↔ eps_reach nfa (move_union nfa (elems S) a) x;
  sinv_transition_keys : NoDup (map fst (dfa_transitions b));
  sinv_accept_keys : StronglySorted lt (map fst (dfa_accept b));
}.

(** The pairs of a state id and a symbol that the run has been through:
    only they have a transition, and one without a transition has no
    move. *)
Record explored (nfa : NFA) (b : build PS) (P : nat → string → Prop) : Prop := {
  ex_bound : ∀ i a, P i a → (i < length (dfa_states b))%nat;
  ex_keys : ∀ i a j, dict_get (i, a) (dfa_transitions b) = Some j → P i a;
  ex_missing : ∀ i a S,
    P i a → dfa_states b !! i = Some S →
    dict_get (i, a) (dfa_transitions b) = None →
    move_union nfa (elems S) a = ∅;
}.

(** The queue holds the ids from [p] on, in order. *)
Definition queue_shape (b : build PS) (p : nat) : Prop :=
  queue b = seq p (length (dfa_states b) - p)
  ∧ (p ≤ length (dfa_states b))%nat.

(** Every state id is where the table leads on some word. *)
Definition accessible (b : build PS) : Prop :=
  ∀ i, (i < length (dfa_states b))%nat →
       ∃ w, dfa_run (dfa_transitions b) 0 w = Some i.

(** Every state but the first is the target of a transition from a state
    with a smaller id. *)
Definition discovery_order (b : build PS) : Prop :=
  ∀ j, (0 < j < length (dfa_states b))%nat →
       ∃ i a, (i < j)%nat ∧ dict_get (i, a) (dfa_transitions b) = Some j.

End run_notions.

(** ** Symbols, digits and labels of the other programs *)

(** A symbol that the reader gives back as it is: one character that is
    not white space. *)
Definition plain_symbol (a : string) : Prop :=
  ∃ c, a = String c EmptyString ∧ py_isspace c = false.

(** A string of decimal digits. *)
Definition all_digits (s : string) : Prop :=
  Forall (λ c, is_digit c = true) (list_ascii_of_string s).


(** The symbols under which the reader files a transition with the given
    label: the members of the three ranges the script knows, epsilon for no
    label, and otherwise the first character of the label once stripped. *)
Definition jff_symbols (read : option string) : list (option string) :=
  match read with
  | None => [None]
  | Some r =>
      if decide (r = "[0-9]") then map Some (chars "0123456789")
      else if decide (r = "[a-z]") then map Some (chars ascii_lowercase)
      else if decide (r = "[A-Z]") then map Some (chars ascii_uppercase)
      else [first_symbol (strip r)]
  end.

(** The Input fields of the rows for one label. *)
Definition jff_inputs (read : option string) : list string :=
  match read with
  | None => [""]
  | Some r =>
      if decide (r = "[0-9]") then chars "0123456789"
      else if decide (r = "[a-z]") then chars ascii_lowercase
      else if decide (r = "[A-Z]") then chars ascii_uppercase
      else [r]
  end.

(** ** Further example inputs *)

(** The example automaton without accept states. *)
Definition plain_nfa : NFA :=
  {| nfa_transitions := nfa_transitions sample_nfa;
     nfa_start := 0;
     nfa_accept := ∅ |}.

(** The DFA of the example automaton. *)
Definition sample_dfa : DFA :=
  {| dfa_trans := [((0%nat, "a"), 1%nat); ((1%nat, "b"), 2%nat)];
     dfa_start := 0;
     dfa_acc := [(2%nat, "accept")] |}.

(** The rows of the example automaton, as a file would give them. *)
Definition sample_rows : list (list string) :=
  [["From"; "Input"; "To"];
   ["0"; ""; "1"];
   ["1"; "a"; "2"];
   ["2"; ""; "3"];
   ["3"; "b"; "4"]].

(** * Proofs *)

(** ** Sets and their iteration *)

Lemma sorted_iter_Permutation s : sorted_iter s ≡ₚ elements s.
Proof. apply merge_sort_Permutation. Qed.

(** ** Epsilon reachability *)

Lemma eps_step_target nfa s x : eps_step nfa s x → x ∈ epsilon_targets nfa.
Proof.
  unfold eps_step, targets, epsilon_targets.
  destruct (nfa_transitions nfa !! (s, None)) as [tos|] eqn:Hk; simpl;
    [|by rewrite elem_of_nil].
  revert Hk.
  apply (map_fold_weak_ind
    (λ acc m, m !! (s, None) = Some tos → x ∈ tos → x ∈ acc)).
  - by rewrite lookup_empty.
  - intros key v m acc Hnone IH Hlook Hx.
    destruct (decide (key = (s, None))) as [->|Hne].
    + rewrite lookup_insert_eq in Hlook. simplify_eq. simpl. set_solver.
    + rewrite lookup_insert_ne in Hlook by done.
      destruct (key.2); set_solver.
Qed.

Lemma eps_closed_reach nfa S T :
  S ⊆ T → eps_closed nfa T → ∀ x, eps_reach nfa S x → x ∈ T.
Proof.
  intros HS Hcl x (s & Hs & Hrtc).
  assert (s ∈ T) as HsT by set_solver. clear Hs.
  induction Hrtc as [|a b c Hab _ IH]; [done|]. apply IH. by eapply Hcl.
Qed.

Section closure_proofs.
Context `{PS : PySet}.

Lemma pyset_contains_spec x (s : pyset) : pyset_contains x s = true ↔ x ∈ elems s.
Proof. unfold pyset_contains. by rewrite bool_decide_eq_true. Qed.

Lemma pyset_truthy_spec (s : pyset) : pyset_truthy s = true ↔ elems s ≠ ∅.
Proof. unfold pyset_truthy. by rewrite bool_decide_eq_true. Qed.

Lemma pyset_iter_elems (s : pyset) : list_to_set (pyset_iter s) = elems s.
Proof.
  apply set_eq. intros x. by rewrite elem_of_list_to_set, elem_of_pyset_iter.
Qed.

Lemma pyset_iter_length (s : pyset) : length (pyset_iter s) = size (elems s).
Proof.
  rewrite <- pyset_iter_elems. symmetry. apply size_list_to_set, pyset_iter_NoDup.
Qed.

(** What one pass of [for next_state in next_states] does: the closure gains
    the targets, and exactly the new ones are pushed, once each. *)
Lemma closure_visit_fold (l : list Z) (c : pyset) (st : list Z) :
  let r := fold_left closure_visit l (c, st) in
  elems r.1 = elems c ∪ list_to_set l ∧
  ∃ new, r.2 = new ++ st ∧ NoDup new ∧
         list_to_set new = elems r.1 ∖ elems c.
Proof.
  revert c st. induction l as [|a l IH]; intros c st; simpl.
  - split; [set_solver|]. exists []. split; [done|]. split; [constructor|].
    set_solver.
  - destruct (pyset_contains a c) eqn:Hin.
    + replace (closure_visit (c, st) a) with (c, st)
        by (unfold closure_visit; simpl; by rewrite Hin).
      apply pyset_contains_spec in Hin.
      destruct (IH c st) as (He & new & Hst & Hnd & Hnew).
      split; [set_solver|]. by exists new.
    + replace (closure_visit (c, st) a) with (pyset_add a c, a :: st)
        by (unfold closure_visit; simpl; by rewrite Hin).
      assert (a ∉ elems c) as Hnin.
      { intros Ha. apply pyset_contains_spec in Ha. congruence. }
      destruct (IH (pyset_add a c) (a :: st)) as (He & new & Hst & Hnd & Hnew).
      rewrite elems_add in He, Hnew.
      split; [set_solver|]. exists (new ++ [a]).
      split; [by rewrite <- app_assoc|]. split.
      * apply NoDup_app. split; [done|]. split; [|apply NoDup_singleton].
        intros x Hx Hxa. apply list_elem_of_singleton in Hxa as ->.
        assert (a ∈ (list_to_set new : gset Z)) as Ha
          by by apply elem_of_list_to_set.
        rewrite Hnew in Ha. set_solver.
      * rewrite list_to_set_app_L, Hnew. simpl.
        apply set_eq. intros x. destruct (decide (x = a)) as [->|]; set_solver.
Qed.

Lemma closure_inv_step nfa S0 c state st :
  closure_inv nfa S0 c (state :: st) →
  let acc := fold_left closure_visit (targets nfa state None) (c, st) in
  closure_inv nfa S0 acc.1 acc.2.
Proof.
  intros [Hi Hr Hs Hd] acc.
  destruct (closure_visit_fold (targets nfa state None) c st)
    as (He & new & Hst & Hnd & Hnew).
  fold acc in He, Hst, Hnew.
  assert (∀ x, x ∈ new ↔ x ∈ elems acc.1 ∧ x ∉ elems c) as Hnew'.
  { intros x. rewrite <- elem_of_difference, <- Hnew.
    by rewrite elem_of_list_to_set. }
  split.
  - set_solver.
  - intros x. rewrite He, elem_of_union, elem_of_list_to_set.
    intros [Hx|Hx]; [by apply Hr|].
    destruct (Hr state) as (s0 & Hs0 & Hrtc); [apply Hs; left|].
    exists s0. split; [done|]. eapply rtc_r; [exact Hrtc|exact Hx].
  - intros x. rewrite Hst, elem_of_app. intros [Hx|Hx].
    + by apply Hnew' in Hx as [? _].
    + rewrite He. apply elem_of_union_l, Hs. by right.
  - intros s x Hsin Hns Hstep. rewrite Hst, elem_of_app in Hns.
    destruct (decide (s = state)) as [->|Hne].
    + rewrite He. apply elem_of_union_r, elem_of_list_to_set, Hstep.
    + destruct (decide (s ∈ elems c)) as [Hsc|Hsc].
      * rewrite He. apply elem_of_union_l, (Hd s x Hsc); [|done].
        rewrite elem_of_cons. tauto.
      * exfalso. apply Hns. left. by apply Hnew'.
Qed.

Lemma closure_measure_step nfa c state st :
  let acc := fold_left closure_visit (targets nfa state None) (c, st) in
  closure_measure nfa acc.1 acc.2 = closure_measure nfa c st.
Proof.
  intros acc.
  destruct (closure_visit_fold (targets nfa state None) c st)
    as (He & new & Hst & Hnd & Hnew).
  fold acc in He, Hst, Hnew. unfold closure_measure.
  rewrite Hst, length_app.
  assert (length new = size (elems acc.1 ∖ elems c)) as ->.
  { rewrite <- Hnew. symmetry. by apply size_list_to_set. }
  assert (epsilon_targets nfa ∖ elems c
          = (elems acc.1 ∖ elems c) ∪ (epsilon_targets nfa ∖ elems acc.1)) as ->.
  { apply set_eq. intros x. rewrite He.
    rewrite elem_of_union, !elem_of_difference, elem_of_union, elem_of_list_to_set.
    split.
    - intros [Hx Hnx]. destruct (decide (x ∈ targets nfa state None)); tauto.
    - intros [[[?|Hx] ?]|[? ?]]; [tauto| |tauto].
      split; [|done]. by eapply eps_step_target. }
  rewrite (size_union (elems acc.1 ∖ elems c) (epsilon_targets nfa ∖ elems acc.1))
    by set_solver. lia.
Qed.

Lemma epsilon_closure_loop_terminates nfa fuel c st :
  (closure_measure nfa c st ≤ fuel)%nat →
  is_Some (epsilon_closure_loop nfa fuel c st).
Proof.
  revert c st. induction fuel as [|fuel IH]; intros c st Hm.
  - destruct st; [by eexists|]. unfold closure_measure in Hm. simpl in Hm. lia.
  - destruct st as [|state st]; [by eexists|]. simpl. apply IH.
    rewrite closure_measure_step. unfold closure_measure in *. simpl in Hm. lia.
Qed.

Lemma epsilon_closure_loop_inv nfa S0 fuel c st r :
  epsilon_closure_loop nfa fuel c st = Some r →
  closure_inv nfa S0 c st → closure_inv nfa S0 r [].
Proof.
  revert c st. induction fuel as [|fuel IH]; intros c st Hrun Hinv.
  - destruct st; simpl in Hrun; by simplify_eq.
  - destruct st as [|state st]; simpl in Hrun; [by simplify_eq|].
    eapply IH; [exact Hrun|]. by apply closure_inv_step.
Qed.

(** More fuel does not change a result. *)
Lemma epsilon_closure_loop_fuel_mono nfa fuel fuel' c st r :
  epsilon_closure_loop nfa fuel c st = Some r → (fuel ≤ fuel')%nat →
  epsilon_closure_loop nfa fuel' c st = Some r.
Proof.
  revert fuel' c st. induction fuel as [|fuel IH]; intros fuel' c st Hrun Hle.
  - destruct st; simpl in Hrun; [|done]. by destruct fuel'.
  - destruct st as [|state st]; [by destruct fuel'|].
    destruct fuel' as [|fuel']; [lia|]. simpl in *. apply IH; [done|lia].
Qed.

(** The loop of [epsilon_closure] ends within the fuel it is given. *)
Lemma epsilon_closure_terminates nfa (states : pyset) :
  epsilon_closure_loop nfa (closure_fuel nfa states)
    (pyset_copy states) (reverse (pyset_iter states))
  = Some (epsilon_closure nfa states).
Proof.
  unfold epsilon_closure.
  destruct (epsilon_closure_loop_terminates nfa (closure_fuel nfa states)
              (pyset_copy states) (reverse (pyset_iter states))) as [r ->];
    [|done].
  unfold closure_measure, closure_fuel. rewrite length_reverse.
  apply Nat.add_le_mono_l, subseteq_size. set_solver.
Qed.

Lemma epsilon_closure_inv nfa (states : pyset) :
  closure_inv nfa (elems states) (epsilon_closure nfa states) [].
Proof.
  eapply epsilon_closure_loop_inv; [apply epsilon_closure_terminates|].
  split.
  - by rewrite elems_copy.
  - intros x. rewrite elems_copy. intros Hx. exists x. split; [done|constructor].
  - intros x. rewrite elem_of_reverse, elem_of_pyset_iter. by rewrite elems_copy.
  - intros s x. rewrite elems_copy, elem_of_reverse, elem_of_pyset_iter. tauto.
Qed.

(** The content of the closure is exactly the set of states reachable by
    epsilon moves. *)
Lemma elem_of_epsilon_closure nfa (states : pyset) x :
  x ∈ elems (epsilon_closure nfa states) ↔ eps_reach nfa (elems states) x.
Proof.
  destruct (epsilon_closure_inv nfa states) as [Hi Hr _ Hd]. split; [apply Hr|].
  apply eps_closed_reach; [done|].
  intros s y Hs. apply Hd; [done|]. apply not_elem_of_nil.
Qed.

Lemma epsilon_closure_closed nfa (states : pyset) :
  eps_closed nfa (elems (epsilon_closure nfa states)).
Proof.
  destruct (epsilon_closure_inv nfa states) as [_ _ _ Hd].
  intros s y Hs. apply Hd; [done|]. apply not_elem_of_nil.
Qed.

Lemma epsilon_closure_extensive nfa (states : pyset) :
  elems states ⊆ elems (epsilon_closure nfa states).
Proof. by destruct (epsilon_closure_inv nfa states). Qed.

End closure_proofs.

(** ** Dictionaries in insertion order *)

Lemma dict_get_set {K V} `{EqDecision K} (k k' : K) (v : V) d :
  dict_get k (dict_set k' v d)
  = if decide (k = k') then Some v else dict_get k d.
Proof.
  induction d as [|[k0 v0] d IH]; simpl.
  - by repeat case_decide.
  - destruct (decide (k' = k0)) as [->|Hne]; simpl.
    + repeat case_decide; congruence.
    + rewrite IH. repeat case_decide; congruence.
Qed.

Lemma dict_set_keys {K V} `{EqDecision K} (k : K) (v : V) d :
  map fst (dict_set k v d)
  = if decide (k ∈ map fst d) then map fst d else map fst d ++ [k].
Proof.
  induction d as [|[k0 v0] d IH]; cbn [dict_set map fst].
  - destruct (decide (k ∈ [])) as [Hin|]; [|done]. by apply elem_of_nil in Hin.
  - destruct (decide (k = k0)) as [->|Hne]; cbn [map fst].
    + rewrite decide_True; [done|]. by left.
    + rewrite IH. destruct (decide (k ∈ map fst d)) as [Hin|Hin].
      * rewrite decide_True; [done|]. by right.
      * rewrite decide_False; [done|]. rewrite elem_of_cons. tauto.
Qed.

Lemma dict_get_None_keys {K V} `{EqDecision K} (k : K) (d : list (K * V)) :
  dict_get k d = None ↔ k ∉ map fst d.
Proof.
  induction d as [|[k0 v0] d IH]; cbn [dict_get map fst].
  - split; [intros _; apply not_elem_of_nil|done].
  - rewrite not_elem_of_cons. destruct (decide (k = k0)); [|tauto].
    split; [done|]. tauto.
Qed.

(** ** move_nfa *)

Section move_proofs.
Context `{PS : PySet}.

Lemma pyset_add_fold_elems (l : list Z) (r : pyset) :
  elems (fold_left (λ result next_state, pyset_add next_state result) l r)
  = elems r ∪ list_to_set l.
Proof.
  revert r. induction l as [|a l IH]; intros r; simpl; [set_solver|].
  rewrite IH, elems_add. set_solver.
Qed.

Lemma pyset_of_list_elems (l : list Z) : elems (pyset_of_list l) = list_to_set l.
Proof.
  unfold pyset_of_list. rewrite pyset_add_fold_elems, elems_empty. set_solver.
Qed.

Lemma move_nfa_fold_elems nfa symbol (l : list Z) (r : pyset) x :
  x ∈ elems (fold_left
               (λ result state,
                  fold_left (λ result next_state, pyset_add next_state result)
                            (targets nfa state (Some symbol)) result) l r)
  ↔ x ∈ elems r ∨ ∃ s, s ∈ l ∧ x ∈ targets nfa s (Some symbol).
Proof.
  revert r. induction l as [|a l IH]; intros r; simpl.
  - split; [by left|]. intros [?|(s & Hs & _)]; [done|].
    by apply elem_of_nil in Hs.
  - rewrite IH, pyset_add_fold_elems, elem_of_union, elem_of_list_to_set.
    split.
    + intros [[?|?]|(s & Hs & ?)]; [by left| |].
      * right. exists a. split; [by left|done].
      * right. exists s. split; [by right|done].
    + intros [?|(s & Hs & ?)]; [by left; left|].
      apply elem_of_cons in Hs as [->|Hs]; [by left; right|].
      right. by exists s.
Qed.

(** The content of [move_nfa]: the targets, on [symbol], of the members. *)
Lemma elem_of_move_nfa nfa (states : pyset) symbol x :
  x ∈ elems (move_nfa nfa states symbol)
  ↔ ∃ s, s ∈ elems states ∧ x ∈ targets nfa s (Some symbol).
Proof.
  unfold move_nfa. rewrite move_nfa_fold_elems, elems_empty.
  setoid_rewrite elem_of_pyset_iter. set_solver.
Qed.

End move_proofs.

(** ** The subset construction *)

Section construction_proofs.
Context `{PS : PySet}.

Lemma nfa_accept_set_elems nfa : elems (nfa_accept_set nfa) = dom (nfa_accept nfa).
Proof.
  unfold nfa_accept_set. rewrite pyset_of_list_elems.
  apply set_eq. intros x.
  rewrite elem_of_list_to_set, list_elem_of_fmap, elem_of_dom. split.
  - intros ([k v] & -> & Hin). apply elem_of_map_to_list in Hin. by exists v.
  - intros [v Hv]. exists (x, v). split; [done|]. by apply elem_of_map_to_list.
Qed.

Lemma record_accept_get nfa i index (closure : pyset) acc :
  dict_get i (record_accept nfa index closure acc)
  = if decide (i = index ∧ accepting nfa (elems closure))
    then Some (String.concat ", " (accept_labels nfa closure))
    else dict_get i acc.
Proof.
  unfold record_accept, pyset_truthy, accepting.
  rewrite elems_inter, nfa_accept_set_elems.
  destruct (decide (elems closure ∩ dom (nfa_accept nfa) ≠ ∅)) as [Hacc|Hacc].
  - rewrite bool_decide_eq_true_2 by done. rewrite dict_get_set.
    destruct (decide (i = index)).
    + by rewrite decide_True.
    + rewrite decide_False; [done|tauto].
  - rewrite bool_decide_eq_false_2 by done. rewrite decide_False; [done|tauto].
Qed.

Lemma initial_build_inv nfa : build_inv nfa (initial_build nfa).
Proof.
  unfold initial_build. cbv zeta.
  generalize (pyset_copy (epsilon_closure nfa
                (pyset_add (nfa_start nfa) pyset_empty))).
  intros start_closure. split; simpl.
  - intros T i. rewrite lookup_singleton_Some. split.
    + intros [<- <-]. by exists start_closure.
    + intros (S & Hl & <-). apply list_lookup_singleton_Some in Hl as [-> ->].
      done.
  - intros i. rewrite list_elem_of_singleton. intros ->. lia.
  - intros i S Hl. apply list_lookup_singleton_Some in Hl as [-> <-].
    rewrite record_accept_get. simpl.
    destruct (decide (accepting nfa (elems start_closure))).
    + by rewrite decide_True.
    + rewrite decide_False; [done|tauto].
  - intros i Hi. rewrite record_accept_get. rewrite decide_False; [done|].
    intros [-> _]. lia.
Qed.

Lemma popleft_inv nfa b current_index rest :
  queue b = current_index :: rest → build_inv nfa b →
  build_inv nfa (popleft rest b).
Proof.
  intros Hq [Hm Hqu Ha Hf]. split; simpl; try done.
  intros i Hi. apply Hqu. rewrite Hq. by right.
Qed.

Lemma process_symbol_inv nfa current_index current_state_set b symbol :
  build_inv nfa b →
  build_inv nfa (process_symbol nfa current_index current_state_set b symbol).
Proof.
  intros Hinv. unfold process_symbol. cbv zeta.
  destruct (negb _); [done|].
  generalize (pyset_copy (epsilon_closure nfa
                (move_nfa nfa (pyset_copy current_state_set) symbol))).
  intros next_closure.
  destruct (state_mapping b !! elems next_closure) as [next_index|] eqn:Hseen.
  { destruct Hinv as [Hm Hqu Ha Hf]. by split. }
  destruct Hinv as [Hm Hqu Ha Hf]. split; simpl.
  - intros T i. destruct (decide (T = elems next_closure)) as [->|Hne].
    + rewrite lookup_insert_eq. split.
      * intros [= <-]. exists next_closure. split; [|done].
        by rewrite lookup_app_r, Nat.sub_diag.
      * intros (S & Hl & HS).
        apply lookup_app_Some in Hl as [Hl|[Hge Hl]].
        -- assert (state_mapping b !! elems next_closure = Some i) as Hold
             by (apply Hm; eauto).
           congruence.
        -- apply list_lookup_singleton_Some in Hl as [Hi _].
           f_equal. lia.
    + rewrite lookup_insert_ne by done. rewrite Hm. split.
      * intros (S & Hl & HS). exists S. split; [|done].
        by apply lookup_app_l_Some.
      * intros (S & Hl & HS).
        apply lookup_app_Some in Hl as [Hl|[Hge Hl]]; [by exists S|].
        apply list_lookup_singleton_Some in Hl as [_ <-]. congruence.
  - intros i. rewrite elem_of_app, list_elem_of_singleton, length_app. simpl.
    intros [Hi| ->]; [|lia]. apply Hqu in Hi. lia.
  - intros i S Hl. rewrite record_accept_get.
    apply lookup_app_Some in Hl as [Hl|[Hge Hl]].
    + rewrite decide_False; [by apply Ha|].
      intros [-> _]. apply lookup_lt_Some in Hl. lia.
    + apply list_lookup_singleton_Some in Hl as [Hi <-].
      assert (i = length (dfa_states b)) as -> by lia.
      destruct (decide (accepting nfa (elems next_closure))).
      * by rewrite decide_True.
      * rewrite decide_False by tauto. by apply Hf.
  - intros i. rewrite length_app. simpl. intros Hi.
    rewrite record_accept_get, decide_False; [apply Hf; lia|].
    intros [-> _]. lia.
Qed.

Lemma build_step_inv nfa b b' :
  build_step nfa b b' → build_inv nfa b → build_inv nfa b'.
Proof.
  intros [? ? ? Hq|? ? ? ? _].
  - by eapply popleft_inv.
  - apply process_symbol_inv.
Qed.

Lemma reachable_inv nfa b : reachable nfa b → build_inv nfa b.
Proof.
  unfold reachable. intros Hr.
  eapply (rtc_ind_r (λ b, build_inv nfa b) (initial_build nfa)); [| |exact Hr].
  - apply initial_build_inv.
  - intros y z _ Hstep Hy. by eapply build_step_inv.
Qed.

(** A step never forgets: ids once assigned stay assigned, and
    [dfa_states] only grows at its end. *)
Lemma process_symbol_stable nfa current_index current_state_set b symbol :
  let b' := process_symbol nfa current_index current_state_set b symbol in
  build_inv nfa b →
  (∀ T i, state_mapping b !! T = Some i → state_mapping b' !! T = Some i)
  ∧ dfa_states b `prefix_of` dfa_states b'.
Proof.
  intros b' Hinv. subst b'. unfold process_symbol. cbv zeta.
  destruct (negb _); [done|].
  generalize (pyset_copy (epsilon_closure nfa
                (move_nfa nfa (pyset_copy current_state_set) symbol))).
  intros next_closure.
  destruct (state_mapping b !! elems next_closure) as [next_index|] eqn:Hseen;
    simpl; [done|].
  split; [|by apply prefix_app_r].
  intros T i HT. rewrite lookup_insert_ne; [done|]. congruence.
Qed.

Lemma build_step_stable nfa b b' :
  build_step nfa b b' → build_inv nfa b →
  (∀ T i, state_mapping b !! T = Some i → state_mapping b' !! T = Some i)
  ∧ dfa_states b `prefix_of` dfa_states b'.
Proof.
  intros [? ? ? Hq|? ? ? ? _] Hinv; [done|].
  by apply process_symbol_stable.
Qed.

Lemma build_steps_stable nfa b b' :
  rtc (build_step nfa) b b' → build_inv nfa b →
  build_inv nfa b'
  ∧ (∀ T i, state_mapping b !! T = Some i → state_mapping b' !! T = Some i)
  ∧ dfa_states b `prefix_of` dfa_states b'.
Proof.
  induction 1 as [b|b b1 b2 Hstep _ IH]; intros Hinv; [done|].
  destruct (build_step_stable _ _ _ Hstep Hinv) as [Hm Hp].
  destruct IH as (Hinv2 & Hm2 & Hp2); [by eapply build_step_inv|].
  split; [done|]. split; [auto|]. by etrans.
Qed.

(** The runs of the loop are runs of the step relation. *)
Lemma for_symbol_steps nfa current_index current_state_set alphabet b :
  build_inv nfa b →
  dfa_states b !! current_index = Some current_state_set →
  rtc (build_step nfa) b
    (fold_left (process_symbol nfa current_index current_state_set) alphabet b).
Proof.
  revert b. induction alphabet as [|symbol alphabet IH]; intros b Hinv Hl;
    simpl; [done|].
  eapply rtc_l; [by apply step_symbol|].
  apply IH; [by apply process_symbol_inv|].
  destruct (process_symbol_stable nfa current_index current_state_set b symbol
              Hinv) as [_ Hp].
  by eapply prefix_lookup_Some.
Qed.

Lemma construction_loop_steps nfa alphabet fuel b b' :
  build_inv nfa b →
  construction_loop nfa alphabet fuel b = Some b' →
  rtc (build_step nfa) b b' ∧ queue b' = [].
Proof.
  revert b. induction fuel as [|fuel IH]; intros b Hinv Hrun.
  - simpl in Hrun. destruct (queue b) eqn:Hq; [|done]. by simplify_eq.
  - simpl in Hrun. destruct (queue b) as [|current_index rest] eqn:Hq;
      [by simplify_eq|].
    destruct (dfa_states b !! current_index) as [current_state_set|] eqn:Hl;
      [|done].
    assert (build_step nfa b (popleft rest b)) as Hpop by by econstructor.
    assert (build_inv nfa (popleft rest b)) as Hinv1
      by by eapply build_step_inv.
    pose proof (for_symbol_steps nfa current_index current_state_set alphabet
                  (popleft rest b) Hinv1 Hl) as Hfor.
    destruct (IH _ (proj1 (build_steps_stable _ _ _ Hfor Hinv1)) Hrun)
      as [Hsteps Hdone].
    split; [|done]. eapply rtc_l; [exact Hpop|]. by etrans.
Qed.

(** Whatever the construction returns was reached by the steps above. *)
Lemma subset_construction_reachable nfa alphabet fuel b :
  subset_construction nfa alphabet fuel = Some b → reachable nfa b.
Proof.
  intros Hrun. eapply construction_loop_steps; [|exact Hrun].
  apply initial_build_inv.
Qed.

End construction_proofs.

(** ** The labels of a set of NFA states *)

Section label_order.
Context `{PS : PySet}.

Lemma pyset_iter_Permutation (S : pyset) : pyset_iter S ≡ₚ elements (elems S).
Proof.
  apply NoDup_Permutation; [apply pyset_iter_NoDup|apply NoDup_elements|].
  intros x. by rewrite elem_of_pyset_iter, elem_of_elements.
Qed.

Lemma accept_states_Permutation nfa (S : pyset) :
  filter (λ s, s ∈ dom (nfa_accept nfa)) (pyset_iter S)
  ≡ₚ sorted_iter (elems S ∩ dom (nfa_accept nfa)).
Proof.
  rewrite sorted_iter_Permutation.
  apply NoDup_Permutation;
    [apply NoDup_filter, pyset_iter_NoDup|apply NoDup_elements|].
  intros x. rewrite list_elem_of_filter, elem_of_pyset_iter, elem_of_elements.
  set_solver.
Qed.

Lemma omap_accept_filter nfa (l : list Z) :
  omap (λ s, nfa_accept nfa !! s) l
  = omap (λ s, nfa_accept nfa !! s) (filter (λ s, s ∈ dom (nfa_accept nfa)) l).
Proof.
  induction l as [|a l IH]; [done|]. rewrite filter_cons.
  destruct (decide (a ∈ dom (nfa_accept nfa))) as [Ha|Ha]; cbn [omap list_omap].
  - by rewrite IH.
  - apply not_elem_of_dom in Ha. by rewrite Ha.
Qed.

Lemma StronglySorted_filter_le (P : Z → Prop) `{∀ x, Decision (P x)} l :
  StronglySorted Z.le l → StronglySorted Z.le (filter P l).
Proof.
  induction 1 as [|a l Hs IH Hall]; [constructor|]. rewrite filter_cons.
  destruct (decide (P a)); [|done]. constructor; [done|].
  apply Forall_forall. intros x Hx. apply list_elem_of_filter in Hx as [_ Hx].
  by eapply Forall_forall in Hall.
Qed.

(** The labels that the code joins are those of the specification, up to
    their order; the order is the specification's when the set iterates in
    ascending order. *)
Lemma accept_labels_spec nfa (S : pyset) :
  accept_labels nfa S
  ≡ₚ omap (λ s, nfa_accept nfa !! s)
       (sorted_iter (elems S ∩ dom (nfa_accept nfa)))
  ∧ (Sorted Z.le (pyset_iter S) →
     String.concat ", " (accept_labels nfa S) = merged_label_spec nfa (elems S)).
Proof.
  unfold accept_labels, merged_label_spec. rewrite omap_accept_filter. split.
  - by rewrite accept_states_Permutation.
  - intros Hsorted. f_equal. f_equal.
    apply (Sorted_unique Z.le); [| |apply accept_states_Permutation].
    + apply StronglySorted_Sorted, StronglySorted_filter_le.
      by apply Sorted_StronglySorted; [apply _|].
    + apply Sorted_merge_sort. apply _.
Qed.

(** With a single accept state in the set, the order plays no part. *)
Lemma singleton_accept_label nfa (S : pyset) (s : Z) (label : string) :
  elems S ∩ dom (nfa_accept nfa) = {[ s ]} →
  nfa_accept nfa !! s = Some label →
  String.concat ", " (accept_labels nfa S) = label.
Proof.
  intros HS Hs. unfold accept_labels. rewrite omap_accept_filter.
  assert (filter (λ s, s ∈ dom (nfa_accept nfa)) (pyset_iter S) = [s]) as ->.
  { apply Permutation_singleton_r.
    rewrite accept_states_Permutation, sorted_iter_Permutation, HS.
    by rewrite elements_singleton. }
  cbn [omap list_omap]. by rewrite Hs.
Qed.

End label_order.

(** With sets that iterate in ascending order the labels are those of the
    specification. *)
Lemma sorted_set_label_ascending nfa (b : build SortedSet) i (S : gset Z) label :
  reachable nfa b → dfa_states b !! i = Some S →
  dict_get i (dfa_accept b) = Some label →
  label = merged_label_spec nfa S.
Proof.
  intros Hr Hl Hget.
  pose proof (binv_accept _ _ (reachable_inv _ _ Hr) i S Hl) as Ha.
  rewrite Hget in Ha. destruct (decide _); [|done]. simplify_eq.
  apply (proj2 (accept_labels_spec (PS:=SortedSet) nfa S)).
  apply Sorted_merge_sort. apply _.
Qed.

(** ** Independence from the iteration order of sets *)

Lemma label_sim_keys acc1 acc2 :
  Forall2 label_sim acc1 acc2 → map fst acc1 = map fst acc2.
Proof.
  induction 1 as [|[i1 l1] [i2 l2] acc1 acc2 [Hi _] _ IH]; [done|].
  simpl in *. by rewrite Hi, IH.
Qed.

Lemma dict_set_label_sim index l1 l2 acc1 acc2 :
  label_sim (index, l1) (index, l2) → Forall2 label_sim acc1 acc2 →
  Forall2 label_sim (dict_set index l1 acc1) (dict_set index l2 acc2).
Proof.
  intros Hl. induction 1 as [|[i1 v1] [i2 v2] acc1 acc2 Hhd Htl IH];
    cbn [dict_set].
  - by constructor.
  - pose proof Hhd as [Hi _]. simpl in Hi. subst i2.
    destruct (decide (index = i1)); by constructor.
Qed.

Section two_implementations.
Context (PS1 PS2 : PySet).

Lemma move_nfa_elems_ext nfa (S1 : @pyset PS1) (S2 : @pyset PS2) symbol :
  elems S1 = elems S2 →
  elems (move_nfa nfa S1 symbol) = elems (move_nfa nfa S2 symbol).
Proof.
  intros HS. apply set_eq. intros x. rewrite !elem_of_move_nfa.
  by setoid_rewrite HS.
Qed.

Lemma epsilon_closure_elems_ext nfa (S1 : @pyset PS1) (S2 : @pyset PS2) :
  elems S1 = elems S2 →
  elems (epsilon_closure nfa S1) = elems (epsilon_closure nfa S2).
Proof.
  intros HS. apply set_eq. intros x. rewrite !elem_of_epsilon_closure.
  by rewrite HS.
Qed.

Lemma accept_labels_ext nfa (S1 : @pyset PS1) (S2 : @pyset PS2) :
  elems S1 = elems S2 → accept_labels nfa S1 ≡ₚ accept_labels nfa S2.
Proof.
  intros HS. rewrite (proj1 (accept_labels_spec nfa S1)).
  rewrite (proj1 (accept_labels_spec nfa S2)). by rewrite HS.
Qed.

Lemma record_accept_sim nfa index (S1 : @pyset PS1) (S2 : @pyset PS2)
    acc1 acc2 :
  elems S1 = elems S2 → Forall2 label_sim acc1 acc2 →
  Forall2 label_sim (record_accept nfa index S1 acc1)
                    (record_accept nfa index S2 acc2).
Proof.
  intros HS Hacc. unfold record_accept, pyset_truthy.
  rewrite !elems_inter, !nfa_accept_set_elems, HS.
  destruct (bool_decide _); [|done].
  apply dict_set_label_sim; [|done]. split; [done|].
  exists (accept_labels nfa S1), (accept_labels nfa S2).
  split; [by apply accept_labels_ext|done].
Qed.

Lemma initial_build_sim nfa :
  build_sim (initial_build (PS:=PS1) nfa) (initial_build (PS:=PS2) nfa).
Proof.
  assert (elems (pyset_copy (epsilon_closure (PS:=PS1) nfa
                   (pyset_add (nfa_start nfa) pyset_empty)))
          = elems (pyset_copy (epsilon_closure (PS:=PS2) nfa
                   (pyset_add (nfa_start nfa) pyset_empty)))) as Hstart.
  { rewrite !elems_copy. apply epsilon_closure_elems_ext.
    by rewrite !elems_add, !elems_empty. }
  unfold initial_build. split; simpl.
  - done.
  - by apply record_accept_sim.
  - by rewrite Hstart.
  - by constructor.
  - done.
Qed.

Lemma process_symbol_sim nfa current_index (S1 : @pyset PS1) (S2 : @pyset PS2)
    (b1 : build PS1) (b2 : build PS2) symbol :
  elems S1 = elems S2 → build_sim b1 b2 →
  build_sim (process_symbol nfa current_index S1 b1 symbol)
            (process_symbol nfa current_index S2 b2 symbol).
Proof.
  intros HS [Ht Ha Hm Hs Hq]. unfold process_symbol. cbv zeta.
  assert (elems (move_nfa nfa (pyset_copy S1) symbol)
          = elems (move_nfa nfa (pyset_copy S2) symbol)) as Hmove.
  { apply move_nfa_elems_ext. by rewrite !elems_copy. }
  assert (pyset_truthy (move_nfa nfa (pyset_copy S1) symbol)
          = pyset_truthy (move_nfa nfa (pyset_copy S2) symbol)) as ->
    by (unfold pyset_truthy; by rewrite Hmove).
  destruct (negb _); [by split|].
  assert (elems (pyset_copy (epsilon_closure nfa
                   (move_nfa nfa (pyset_copy S1) symbol)))
          = elems (pyset_copy (epsilon_closure nfa
                   (move_nfa nfa (pyset_copy S2) symbol)))) as Hnext.
  { rewrite !elems_copy. by apply epsilon_closure_elems_ext. }
  rewrite Hnext, Hm.
  destruct (state_mapping b2 !! _) as [next_index|]; split; simpl;
    rewrite ?Ht, ?Hq, ?Hm, ?(Forall2_length _ _ _ Hs); try done.
  - by apply record_accept_sim.
  - apply Forall2_app; [done|]. by constructor.
Qed.

Lemma for_symbol_sim nfa current_index (S1 : @pyset PS1) (S2 : @pyset PS2)
    alphabet (b1 : build PS1) (b2 : build PS2) :
  elems S1 = elems S2 → build_sim b1 b2 →
  build_sim (fold_left (process_symbol nfa current_index S1) alphabet b1)
            (fold_left (process_symbol nfa current_index S2) alphabet b2).
Proof.
  intros HS. revert b1 b2.
  induction alphabet as [|symbol alphabet IH]; intros b1 b2 Hsim; simpl;
    [done|].
  by apply IH, process_symbol_sim.
Qed.

(** With the same fuel the two runs end together, in related states. *)
Lemma construction_loop_sim nfa alphabet fuel (b1 : build PS1) (b2 : build PS2) :
  build_sim b1 b2 →
  option_Forall2 build_sim
    (construction_loop nfa alphabet fuel b1)
    (construction_loop nfa alphabet fuel b2).
Proof.
  revert b1 b2. induction fuel as [|fuel IH]; intros b1 b2 Hsim;
    pose proof Hsim as [Ht Ha Hm Hs Hq]; simpl; rewrite Hq;
    (destruct (queue b2) as [|current_index rest] eqn:Hq2; [by constructor|]);
    [constructor|].
  destruct (proj1 (Forall2_lookup _ _ _) Hs current_index) as [S1 S2 HS| ];
    [|constructor].
  apply IH, for_symbol_sim; [done|]. by split.
Qed.

End two_implementations.

(** ** Termination of the subset construction *)

Lemma elem_of_subsets_of (l : list Z) (T : gset Z) :
  T ⊆ list_to_set l → T ∈ subsets_of l.
Proof.
  revert T. induction l as [|x l IH]; intros T HT; simpl in *.
  - apply elem_of_singleton. set_solver.
  - destruct (decide (x ∈ T)) as [Hx|Hx].
    + apply elem_of_union_r, elem_of_map. exists (T ∖ {[ x ]}). split.
      * apply set_eq. intros y. destruct (decide (y = x)); set_solver.
      * apply IH. set_solver.
    + apply elem_of_union_l, IH. set_solver.
Qed.

Lemma targets_all_targets nfa s symbol x :
  x ∈ targets nfa s symbol → x ∈ all_targets nfa.
Proof.
  unfold targets, all_targets.
  destruct (nfa_transitions nfa !! (s, symbol)) as [tos|] eqn:Hk; simpl;
    [|by rewrite elem_of_nil].
  revert Hk.
  apply (map_fold_weak_ind
    (λ acc m, m !! (s, symbol) = Some tos → x ∈ tos → x ∈ acc)).
  - by rewrite lookup_empty.
  - intros key v m acc Hnone IH Hlook Hx.
    destruct (decide (key = (s, symbol))) as [->|Hne].
    + rewrite lookup_insert_eq in Hlook. simplify_eq. set_solver.
    + rewrite lookup_insert_ne in Hlook by done. set_solver.
Qed.

Lemma eps_reach_targets nfa S x :
  eps_reach nfa S x → x ∈ S ∨ x ∈ all_targets nfa.
Proof.
  intros (s & Hs & Hrtc). apply rtc_inv_r in Hrtc as [->|(y & _ & Hstep)].
  - by left.
  - right. by eapply targets_all_targets.
Qed.

Section termination.
Context `{PS : PySet}.

Lemma next_closure_states nfa (states : pyset) symbol :
  elems (epsilon_closure nfa (move_nfa nfa states symbol)) ⊆ nfa_states nfa.
Proof.
  intros x Hx. apply elem_of_epsilon_closure, eps_reach_targets in Hx.
  apply elem_of_union_r. destruct Hx as [Hx|Hx]; [|done].
  apply elem_of_move_nfa in Hx as (s & _ & Hx). by eapply targets_all_targets.
Qed.

Lemma start_closure_states nfa :
  elems (epsilon_closure nfa (pyset_add (nfa_start nfa) pyset_empty))
  ⊆ nfa_states nfa.
Proof.
  intros x Hx. apply elem_of_epsilon_closure, eps_reach_targets in Hx.
  rewrite elems_add, elems_empty in Hx. unfold nfa_states. set_solver.
Qed.

Lemma elem_of_powerset_states nfa (T : gset Z) :
  T ⊆ nfa_states nfa → T ∈ subsets_of (elements (nfa_states nfa)).
Proof.
  intros HT. apply elem_of_subsets_of. intros x Hx.
  apply elem_of_list_to_set, elem_of_elements. auto.
Qed.

Lemma process_symbol_measure nfa current_index current_state_set b symbol :
  construction_measure nfa
    (process_symbol nfa current_index current_state_set b symbol)
  = construction_measure nfa b.
Proof.
  unfold process_symbol. cbv zeta. destruct (negb _); [done|].
  pose proof (next_closure_states nfa (pyset_copy current_state_set) symbol)
    as Hsub.
  rewrite <- (elems_copy (epsilon_closure _ _)) in Hsub.
  revert Hsub.
  generalize (pyset_copy (epsilon_closure nfa
                (move_nfa nfa (pyset_copy current_state_set) symbol))).
  intros next_closure Hsub.
  destruct (state_mapping b !! elems next_closure) as [next_index|] eqn:Hseen;
    [done|].
  unfold construction_measure. simpl. rewrite length_app, dom_insert_L. simpl.
  set (P := subsets_of (elements (nfa_states nfa))).
  assert (elems next_closure ∈ P) as HP by by apply elem_of_powerset_states.
  assert (elems next_closure ∉ dom (state_mapping b)) as Hnew
    by by apply not_elem_of_dom.
  assert (P ∖ dom (state_mapping b)
          = {[ elems next_closure ]}
            ∪ P ∖ ({[ elems next_closure ]} ∪ dom (state_mapping b))) as ->.
  { apply set_eq. intros T.
    destruct (decide (T = elems next_closure)) as [->|]; set_solver. }
  rewrite (size_union {[ elems next_closure ]}
             (P ∖ ({[ elems next_closure ]} ∪ dom (state_mapping b))))
    by set_solver.
  rewrite size_singleton. lia.
Qed.

Lemma for_symbol_measure nfa current_index current_state_set alphabet b :
  construction_measure nfa
    (fold_left (process_symbol nfa current_index current_state_set) alphabet b)
  = construction_measure nfa b.
Proof.
  revert b. induction alphabet as [|symbol alphabet IH]; intros b; simpl;
    [done|].
  by rewrite IH, process_symbol_measure.
Qed.

Lemma construction_loop_terminates nfa alphabet fuel b :
  build_inv nfa b → (construction_measure nfa b ≤ fuel)%nat →
  is_Some (construction_loop nfa alphabet fuel b).
Proof.
  revert b. induction fuel as [|fuel IH]; intros b Hinv Hm;
    unfold construction_measure in Hm; simpl;
    (destruct (queue b) as [|current_index rest] eqn:Hq; [by eexists|]);
    simpl in Hm; [lia|].
  destruct (lookup_lt_is_Some_2 (dfa_states b) current_index)
    as [current_state_set Hl].
  { apply (binv_queue _ _ Hinv). rewrite Hq. by left. }
  rewrite Hl.
  assert (build_inv nfa (popleft rest b)) as Hinv1 by by eapply popleft_inv.
  apply IH.
  - eapply build_steps_stable; [|exact Hinv1]. by apply for_symbol_steps.
  - rewrite for_symbol_measure. unfold construction_measure. simpl. lia.
Qed.

(** More fuel does not change a result. *)
Lemma construction_loop_fuel_mono nfa alphabet fuel fuel' b r :
  construction_loop nfa alphabet fuel b = Some r → (fuel ≤ fuel')%nat →
  construction_loop nfa alphabet fuel' b = Some r.
Proof.
  revert fuel' b. induction fuel as [|fuel IH]; intros fuel' b Hrun Hle;
    simpl in Hrun.
  - destruct (queue b) eqn:Hq; [|done]. destruct fuel'; simpl; by rewrite Hq.
  - destruct fuel' as [|fuel']; simpl.
    { destruct (queue b) eqn:Hq; [done|lia]. }
    destruct (queue b) as [|current_index rest]; [done|].
    destruct (dfa_states b !! current_index); [|done].
    apply IH; [done|lia].
Qed.

(** [while queue] ends: with [construction_fuel nfa] iterations, or more,
    the construction returns. *)
Lemma subset_construction_terminates nfa alphabet :
  ∃ b, ∀ fuel, (construction_fuel nfa ≤ fuel)%nat →
       subset_construction nfa alphabet fuel = Some b.
Proof.
  destruct (construction_loop_terminates nfa alphabet (construction_fuel nfa)
              (initial_build nfa)) as [b Hb].
  { apply initial_build_inv. }
  { unfold construction_measure, construction_fuel, initial_build. simpl.
    rewrite dom_singleton_L.
    set (P := subsets_of (elements (nfa_states nfa))).
    set (T := elems (pyset_copy _)).
    assert (T ∈ P) as HT.
    { apply elem_of_powerset_states. subst T. rewrite elems_copy.
      apply start_closure_states. }
    assert (P = {[ T ]} ∪ P ∖ {[ T ]}) as HP.
    { apply set_eq. intros x. destruct (decide (x = T)) as [->|]; set_solver. }
    rewrite HP at 2. rewrite (size_union {[ T ]} (P ∖ {[ T ]})) by set_solver.
    rewrite size_singleton. lia. }
  exists b. intros fuel Hle. by eapply construction_loop_fuel_mono.
Qed.


End termination.

(** ** The claims about the closure and the move *)

(** C5: [epsilon_closure] is idempotent, its result contains its argument,
    and that result is what the loop returns within its fuel. *)
Theorem epsilon_closure_idempotent `{PS : PySet} (nfa : NFA) (S : pyset) :
  elems (epsilon_closure nfa (epsilon_closure nfa S))
  = elems (epsilon_closure nfa S)
  ∧ elems S ⊆ elems (epsilon_closure nfa S)
  ∧ epsilon_closure_loop nfa (closure_fuel nfa S)
      (pyset_copy S) (reverse (pyset_iter S))
    = Some (epsilon_closure nfa S).
Proof.
  split; [|split; [apply epsilon_closure_extensive
                  |apply epsilon_closure_terminates]].
  apply set_eq. intros x. split.
  - rewrite (elem_of_epsilon_closure nfa (epsilon_closure nfa S)).
    apply eps_closed_reach; [done|apply epsilon_closure_closed].
  - apply epsilon_closure_extensive.
Qed.

(** C10: the closure holds exactly the states of [S] and those reachable
    from them by epsilon moves: it contains [S], no epsilon move leaves it,
    and it lies inside every set with these two properties. *)
Theorem epsilon_closure_least `{PS : PySet} (nfa : NFA) (S : pyset) :
  (∀ x, x ∈ elems (epsilon_closure nfa S) ↔ eps_reach nfa (elems S) x)
  ∧ elems S ⊆ elems (epsilon_closure nfa S)
  ∧ eps_closed nfa (elems (epsilon_closure nfa S))
  ∧ (∀ T : gset Z,
       elems S ⊆ T → eps_closed nfa T → elems (epsilon_closure nfa S) ⊆ T).
Proof.
  split; [apply elem_of_epsilon_closure|].
  split; [apply epsilon_closure_extensive|].
  split; [apply epsilon_closure_closed|].
  intros T HS HT x Hx. apply elem_of_epsilon_closure in Hx.
  by eapply eps_closed_reach.
Qed.

(** C7: [move_nfa] returns the union of the targets, on the symbol, of the
    states of [S]; the result is empty when no state of [S] has a
    transition on the symbol. *)
Theorem move_nfa_union `{PS : PySet} (nfa : NFA) (S : pyset) (symbol : string) :
  elems (move_nfa nfa S symbol) = move_union nfa (elems S) symbol
  ∧ ((∀ s, s ∈ elems S → nfa_transitions nfa !! (s, Some symbol) = None) →
     elems (move_nfa nfa S symbol) = ∅
     ∧ pyset_truthy (move_nfa nfa S symbol) = false).
Proof.
  split.
  - apply set_eq. intros x. unfold move_union.
    rewrite elem_of_move_nfa, elem_of_union_list. split.
    + intros (s & Hs & Hx). exists (list_to_set (targets nfa s (Some symbol))).
      split; [|by apply elem_of_list_to_set].
      apply list_elem_of_fmap. exists s. by rewrite elem_of_elements.
    + intros (X & HX & Hx). apply list_elem_of_fmap in HX as (s & -> & Hs).
      exists s. split; [by apply elem_of_elements|].
      by apply elem_of_list_to_set in Hx.
  - intros Hnone.
    assert (elems (move_nfa nfa S symbol) = ∅) as Hempty.
    { apply set_eq. intros x. rewrite elem_of_move_nfa. split; [|set_solver].
      intros (s & Hs & Hx). unfold targets in Hx. rewrite (Hnone s Hs) in Hx.
      by apply elem_of_nil in Hx. }
    split; [done|]. unfold pyset_truthy. rewrite Hempty.
    apply bool_decide_eq_false_2. intros Hne. by apply Hne.
Qed.

(** ** The claims about the subset construction *)

Section construction_claims.
Context `{PS : PySet}.

(** C4: the id of a discovered DFA state is a key of [dfa_accept] exactly
    when its set of NFA states meets the NFA's accept states, at every
    point of a run. *)
Theorem accept_iff_intersects (nfa : NFA) (b : build PS) (i : nat) (S : pyset) :
  reachable nfa b → dfa_states b !! i = Some S →
  (i ∈ map fst (dfa_accept b) ↔ elems S ∩ dom (nfa_accept nfa) ≠ ∅).
Proof.
  intros Hr Hl. pose proof (binv_accept _ _ (reachable_inv _ _ Hr) i S Hl) as Ha.
  pose proof (dict_get_None_keys i (dfa_accept b)) as Hk.
  unfold accepting in Ha. destruct (decide (elems S ∩ dom (nfa_accept nfa) ≠ ∅))
    as [Hacc|Hacc].
  - split; [done|]. intros _. destruct (decide (i ∈ map fst (dfa_accept b)));
      [done|]. apply Hk in n. congruence.
  - split; [|done]. intros Hin. apply Hk in Ha. done.
Qed.

(** C6: at every point of a run no two ids stand for the same set of NFA
    states, [state_mapping] sends each discovered set to its one id and
    distinct sets to distinct ids, ids and sets once assigned stay for the
    rest of the run, and a closure that was seen before gets its old id: no
    state is added, and the transition goes to that id. *)
Theorem state_ids_injective (nfa : NFA) (b b' : build PS) :
  reachable nfa b → rtc (build_step nfa) b b' →
  (∀ i j S S', dfa_states b !! i = Some S → dfa_states b !! j = Some S' →
               elems S = elems S' → i = j)
  ∧ (∀ T i, state_mapping b !! T = Some i
            ↔ ∃ S, dfa_states b !! i = Some S ∧ elems S = T)
  ∧ (∀ T T' i, state_mapping b !! T = Some i →
               state_mapping b !! T' = Some i → T = T')
  ∧ (∀ T i, state_mapping b !! T = Some i → state_mapping b' !! T = Some i)
  ∧ (∀ i S, dfa_states b !! i = Some S → dfa_states b' !! i = Some S)
  ∧ (∀ current_index current_state_set symbol next_index,
       let move_set := move_nfa nfa (pyset_copy current_state_set) symbol in
       let next_closure := pyset_copy (epsilon_closure nfa move_set) in
       let b1 := process_symbol nfa current_index current_state_set b symbol in
       pyset_truthy move_set = true →
       state_mapping b !! elems next_closure = Some next_index →
       state_mapping b1 = state_mapping b
       ∧ dfa_states b1 = dfa_states b
       ∧ dict_get (current_index, symbol) (dfa_transitions b1) = Some next_index).
Proof.
  intros Hr Hsteps. pose proof (reachable_inv _ _ Hr) as Hinv.
  destruct (build_steps_stable _ _ _ Hsteps Hinv) as (_ & Hstable & Hprefix).
  pose proof (binv_mapping _ _ Hinv) as Hm.
  split; [|split; [done|split; [|split; [done|split]]]].
  - intros i j S S' Hi Hj HS.
    assert (state_mapping b !! elems S = Some i) as H1 by (apply Hm; eauto).
    assert (state_mapping b !! elems S = Some j) as H2 by (apply Hm; eauto).
    congruence.
  - intros T T' i HT HT'. apply Hm in HT as (S & Hl & <-).
    apply Hm in HT' as (S' & Hl' & <-). congruence.
  - intros i S Hl. by eapply prefix_lookup_Some.
  - intros current_index current_state_set symbol next_index move_set
      next_closure b1 Htruthy Hseen.
    subst b1. unfold process_symbol. cbv zeta. fold move_set.
    rewrite Htruthy. simpl. fold next_closure. rewrite Hseen. simpl.
    split; [done|]. split; [done|]. rewrite dict_get_set. by rewrite decide_True.
Qed.

(** C1, as the code has it: the label of a DFA accept state joins, with
    [", "], the labels of the NFA accept states of its set in the order in
    which the set iterates.  These are the labels of the specification in
    some order, and in ascending order of the state ids when the set
    iterates in ascending order. *)
Theorem accept_label_iteration_order (nfa : NFA) (b : build PS) (i : nat)
    (S : pyset) (label : string) :
  reachable nfa b → dfa_states b !! i = Some S →
  dict_get i (dfa_accept b) = Some label →
  label = String.concat ", " (accept_labels nfa S)
  ∧ accept_labels nfa S
    ≡ₚ omap (λ s, nfa_accept nfa !! s)
         (sorted_iter (elems S ∩ dom (nfa_accept nfa)))
  ∧ (Sorted Z.le (pyset_iter S) → label = merged_label_spec nfa (elems S)).
Proof.
  intros Hr Hl Hget.
  pose proof (binv_accept _ _ (reachable_inv _ _ Hr) i S Hl) as Ha.
  rewrite Hget in Ha. destruct (decide _); [|done]. simplify_eq.
  destruct (accept_labels_spec nfa S) as [Hperm Hsorted]. auto.
Qed.

End construction_claims.


Lemma sample_sorted_run (alphabet : list string) :
  alphabet = ["a"; "b"] ∨ alphabet = ["b"; "a"] →
  match subset_construction (PS:=SortedSet) sample_nfa alphabet 3 with
  | Some b =>
      dfa_transitions b = [((0%nat, "a"), 1%nat); ((1%nat, "b"), 2%nat)]
      ∧ map fst (dfa_accept b) = [2%nat]
      ∧ sorted_iter <$> dfa_states b = [[0; 1]; [2; 3]; [4]]
  | None => False
  end.
Proof. intros [-> | ->]; vm_compute; repeat split; reflexivity. Qed.

(** C3: on the automaton of the example, with the two symbols in either
    order, the construction finds the three sets {0,1}, {2,3} and {4},
    numbered 0, 1 and 2, and returns the DFA with the two transitions
    (0,a)->1 and (1,b)->2 and the accept mapping {2: "accept"}. *)
Theorem sample_conversion `{PS : PySet} (alphabet : list string) (fuel : nat) :
  alphabet = ["a"; "b"] ∨ alphabet = ["b"; "a"] → (3 ≤ fuel)%nat →
  ∃ b, subset_construction sample_nfa alphabet fuel = Some b
     ∧ elems <$> dfa_states b = [{[0; 1]}; {[2; 3]}; {[4]}]
     ∧ convert_nfa_to_dfa sample_nfa alphabet fuel
       = Some {| dfa_trans := [((0%nat, "a"), 1%nat); ((1%nat, "b"), 2%nat)];
                 dfa_start := 0;
                 dfa_acc := [(2%nat, "accept")] |}.
Proof.
  intros Halpha Hfuel.
  pose proof (sample_sorted_run alphabet Halpha) as HS.
  destruct (subset_construction (PS:=SortedSet) sample_nfa alphabet 3)
    as [bS|] eqn:HbS; [|done].
  destruct HS as (HtS & HaS & HsS).
  pose proof (construction_loop_sim PS SortedSet sample_nfa alphabet 3 _ _
                (initial_build_sim PS SortedSet sample_nfa)) as Hsim.
  unfold subset_construction in HbS. rewrite HbS in Hsim.
  destruct (construction_loop sample_nfa alphabet 3
              (initial_build (PS:=PS) sample_nfa)) as [b|] eqn:Hb;
    [|by inversion Hsim].
  assert (@build_sim PS SortedSet b bS) as [Ht Ha Hm Hs Hq]
    by by inversion Hsim.
  apply label_sim_keys in Ha.
  assert (subset_construction sample_nfa alphabet fuel = Some b) as Hrun.
  { unfold subset_construction.
    eapply construction_loop_fuel_mono; [exact Hb|done]. }
  assert (elems <$> dfa_states b = [{[0; 1]}; {[2; 3]}; {[4]}]) as Hsets.
  { assert (elems <$> dfa_states b = list_to_set <$> (sorted_iter <$> dfa_states bS))
      as ->.
    { clear -Hs. induction Hs as [|S1 S2 l1 l2 HS _ IH]; [done|].
      rewrite !fmap_cons, IH. f_equal. rewrite HS.
      by rewrite <- (pyset_iter_elems (PS:=SortedSet) S2). }
    rewrite HsS. simpl. repeat f_equal; set_solver. }
  clear HbS Hb Hsim.
  exists b. split; [done|]. split; [done|].
  unfold convert_nfa_to_dfa. rewrite Hrun. cbn [fmap option_fmap option_map].
  unfold dfa_of_build. rewrite Ht, HtS. do 2 f_equal.
  rewrite HaS in Ha.
  assert (∃ S2, dfa_states b !! 2%nat = Some S2 ∧ elems S2 = {[4]})
    as (S2 & Hl2 & HS2).
  { pose proof (list_lookup_fmap elems (dfa_states b) 2) as Hl.
    rewrite Hsets in Hl. destruct (dfa_states b !! 2%nat) as [S2|]; [|done].
    exists S2. split; [done|]. by injection Hl. }
  pose proof (subset_construction_reachable _ _ _ _ Hrun) as Hr.
  pose proof (binv_accept _ _ (reachable_inv _ _ Hr) 2%nat S2 Hl2) as Hacc.
  destruct (dfa_accept b) as [|[k label] [|? ?]]; try discriminate Ha.
  injection Ha as ->. cbn [dict_get] in Hacc.
  rewrite decide_True in Hacc by done.
  destruct (decide _) as [_|Hn] in Hacc; [|done].
  injection Hacc as ->. do 2 f_equal.
  apply singleton_accept_label with 4; [|done].
  rewrite HS2. apply set_eq. intros x. unfold sample_nfa. simpl.
  rewrite dom_singleton_L. set_solver.
Qed.

(** *** The claims at concrete runs *)

Lemma run_build_reachable `{PS : PySet} nfa alphabet fuel :
  reachable nfa (run_build nfa alphabet fuel).
Proof.
  unfold run_build.
  destruct (subset_construction nfa alphabet fuel) as [b|] eqn:Hb; simpl.
  - by eapply subset_construction_reachable.
  - apply rtc_refl.
Qed.

Lemma accept_iff_intersects_witness :
  2%nat ∈ map fst (dfa_accept
                     (run_build (PS:=InsertionSet) sample_nfa ["a"; "b"] 3))
  ↔ elems ([4] : @pyset InsertionSet) ∩ dom (nfa_accept sample_nfa) ≠ ∅.
Proof.
  apply (accept_iff_intersects (PS:=InsertionSet) sample_nfa _ 2 [4]).
  - apply run_build_reachable.
  - vm_compute. reflexivity.
Defined.

Lemma state_ids_injective_witness :
  state_mapping (run_build (PS:=InsertionSet) sample_nfa ["a"; "b"] 3)
    !! ({[0; 1]} : gset Z) = Some 0%nat.
Proof.
  refine (proj1 (proj2 (proj2 (proj2
            (state_ids_injective (PS:=InsertionSet) sample_nfa
               (initial_build sample_nfa)
               (run_build sample_nfa ["a"; "b"] 3) _ _)))) _ _ _).
  - apply rtc_refl.
  - apply run_build_reachable.
  - vm_compute. reflexivity.
Defined.

Lemma accept_label_iteration_order_witness :
  "y, x" = String.concat ", "
             (accept_labels (PS:=InsertionSet) descending_nfa [8; 1]).
Proof.
  refine (proj1 (accept_label_iteration_order (PS:=InsertionSet) descending_nfa
                   (run_build descending_nfa [] 1) 0 [8; 1] "y, x" _ _ _)).
  - apply run_build_reachable.
  - vm_compute. reflexivity.
  - vm_compute. reflexivity.
Defined.

(** C1, as stated, fails: with sets that iterate in insertion order (on
    this input CPython's hash table yields the same order: 8 and then 1 fall
    into the first two slots of the table), the start state of
    [descending_nfa] is the set {8, 1}, which iterates as 8, 1, and its
    label joins the label of state 8 before that of state 1. *)
Lemma accept_label_not_ascending :
  convert_nfa_to_dfa (PS:=InsertionSet) descending_nfa [] 1
  = Some {| dfa_trans := []; dfa_start := 0; dfa_acc := [(0%nat, "y, x")] |}
  ∧ (λ b, pyset_iter <$> dfa_states b)
      <$> subset_construction (PS:=InsertionSet) descending_nfa [] 1
    = Some [[8; 1]]
  ∧ merged_label_spec descending_nfa {[8; 1]} = "x, y".
Proof. repeat split; vm_compute; reflexivity. Qed.


Lemma sample_conversion_witness :
  ∃ b : build InsertionSet,
    subset_construction sample_nfa ["a"; "b"] 3 = Some b
    ∧ elems <$> dfa_states b = [{[0; 1]}; {[2; 3]}; {[4]}]
    ∧ convert_nfa_to_dfa sample_nfa ["a"; "b"] 3
      = Some {| dfa_trans := [((0%nat, "a"), 1%nat); ((1%nat, "b"), 2%nat)];
                dfa_start := 0;
                dfa_acc := [(2%nat, "accept")] |}.
Proof.
  apply (sample_conversion (PS:=InsertionSet) ["a"; "b"] 3).
  - left. reflexivity.
  - lia.
Defined.

Lemma move_nfa_union_witness :
  elems (move_nfa (PS:=InsertionSet) sample_nfa [0; 1] "b") = ∅
  ∧ pyset_truthy (move_nfa (PS:=InsertionSet) sample_nfa [0; 1] "b") = false.
Proof.
  apply (proj2 (move_nfa_union (PS:=InsertionSet) sample_nfa [0; 1] "b")).
  intros s Hs. simpl in Hs.
  apply elem_of_union in Hs as [Hs|Hs].
  - apply elem_of_singleton in Hs as ->. vm_compute. reflexivity.
  - apply elem_of_union in Hs as [Hs|Hs].
    + apply elem_of_singleton in Hs as ->. vm_compute. reflexivity.
    + by apply elem_of_empty in Hs.
Defined.

(** ** The transition-table reader *)

Lemma rstrip_nonspace c s :
  py_isspace c = false → ∃ r, rstrip (String c s) = String c r.
Proof.
  intros Hc. simpl. destruct (rstrip s); [|by eexists].
  rewrite Hc. by eexists.
Qed.

Lemma rstrip_idemp s : rstrip (rstrip s) = rstrip s.
Proof.
  induction s as [|c s IH]; [done|]. simpl.
  destruct (rstrip s) as [|c' r] eqn:Hr.
  - destruct (py_isspace c) eqn:Hc; [done|]. simpl. by rewrite Hc.
  - simpl in *. by rewrite IH.
Qed.

Lemma lstrip_head s :
  lstrip s = EmptyString ∨ ∃ c r, lstrip s = String c r ∧ py_isspace c = false.
Proof.
  induction s as [|c s IH]; [by left|]. simpl.
  destruct (py_isspace c) eqn:Hc; [done|]. right. by exists c, s.
Qed.

Lemma lstrip_strip s : lstrip (strip s) = strip s.
Proof.
  unfold strip. destruct (lstrip_head s) as [->|(c & r & -> & Hc)]; [done|].
  destruct (rstrip_nonspace c r Hc) as [r' ->]. simpl. by rewrite Hc.
Qed.

Lemma strip_idemp s : strip (strip s) = strip s.
Proof.
  unfold strip at 1. rewrite lstrip_strip. unfold strip. apply rstrip_idemp.
Qed.

Lemma py_int_strip s : py_int (strip s) = py_int s.
Proof. unfold py_int. by rewrite strip_idemp. Qed.

Lemma startswith_comment s :
  startswith "//" s = true → ∃ r, s = String "/" (String "/" r).
Proof.
  destruct s as [|a s]; [done|]. cbn [startswith].
  destruct (Ascii.eqb_spec "/" a) as [<-|]; [|done].
  destruct s as [|b r]; [done|]. cbn [startswith].
  destruct (Ascii.eqb_spec "/" b) as [<-|]; [|done]. by eexists.
Qed.

Lemma strip_comment s :
  startswith "//" s = true → startswith "//" (strip s) = true.
Proof.
  intros (r & ->)%startswith_comment. unfold strip.
  change (lstrip (String "/" (String "/" r))) with (String "/" (String "/" r)).
  destruct (rstrip_nonspace "/" r eq_refl) as [r' Hr'].
  change (rstrip (String "/" (String "/" r)))
    with (match rstrip (String "/" r) with
          | EmptyString => String "/" EmptyString
          | r0 => String "/" r0
          end).
  by rewrite Hr'.
Qed.

(** A field that [strip] leaves with [//] in front is not a number. *)
Lemma py_int_comment s : startswith "//" (strip s) = true → py_int s = None.
Proof.
  intros (r & Hr)%startswith_comment. unfold py_int. by rewrite Hr.
Qed.

(** The body of the loop in terms of the specification's words. *)
Lemma read_row_spec transitions row :
  (malformed_row row = true ↔ row_transition row = None)
  ∧ read_row transitions row
    = match row_transition row with
      | Some (key, to) => setdefault_append key to transitions
      | None => transitions
      end.
Proof.
  destruct row as [|f0 [|f1 [|f2 [|f3 row]]]];
    unfold malformed_row, row_transition, read_row, is_comment_row;
    [by rewrite orb_true_r
    |rewrite orb_true_r; by destruct (startswith "//" (strip f0))
    |rewrite orb_true_r; by destruct (startswith "//" (strip f0))
    |
    |rewrite orb_true_r; by destruct (startswith "//" (strip f0))].
  rewrite !py_int_strip.
  destruct (startswith "//" f0) eqn:Hc0.
  { apply strip_comment in Hc0. rewrite Hc0.
    rewrite (py_int_comment _ Hc0). by split. }
  destruct (startswith "//" (strip f0)) eqn:Hc.
  { rewrite (py_int_comment _ Hc). split; [|done]. by split. }
  destruct (py_int f0) as [frm|]; simpl; [|by split].
  destruct (py_int f2) as [to|]; simpl; [|by split].
  split; [|done]. by split.
Qed.

Lemma setdefault_append_lookup key to transitions key' :
  setdefault_append key to transitions !! key'
  = if decide (key = key')
    then Some (default [] (transitions !! key) ++ [to])
    else transitions !! key'.
Proof. unfold setdefault_append. apply lookup_insert. Qed.

Lemma read_rows_lookup rows transitions key :
  fold_left read_row rows transitions !! key
  = match row_targets key rows with
    | [] => transitions !! key
    | tos => Some (default [] (transitions !! key) ++ tos)
    end.
Proof.
  revert transitions. induction rows as [|row rows IH]; intros transitions;
    [done|].
  cbn [fold_left]. rewrite IH. unfold row_targets at 2. cbn [omap list_omap].
  fold (row_targets key rows).
  rewrite (proj2 (read_row_spec transitions row)).
  destruct (row_transition row) as [[k to]|]; [|done].
  rewrite setdefault_append_lookup.
  destruct (decide (k = key)) as [->|Hne].
  - simpl. destruct (row_targets key rows); [done|].
    by rewrite <- app_assoc.
  - done.
Qed.

Lemma read_rows_filter rows transitions :
  fold_left read_row rows transitions
  = fold_left read_row
      (filter (λ row, malformed_row row = false) rows) transitions.
Proof.
  revert transitions. induction rows as [|row rows IH]; intros transitions;
    [done|].
  rewrite filter_cons. cbn [fold_left].
  destruct (read_row_spec transitions row) as [Hm Hr].
  destruct (decide (malformed_row row = false)) as [Hok|Hbad].
  - cbn [fold_left]. apply IH.
  - apply not_false_is_true, Hm in Hbad. rewrite Hr, Hbad. apply IH.
Qed.

(** C8: a row that is a comment, has another column count than three, or
    has a From or To field that is not an integer leaves the mapping as it
    was; every other row appends its target under its key; so the result is
    that of reading the well-formed rows alone, and holds, for every key,
    the targets of all the well-formed rows with that key, in their order. *)
Theorem read_skips_malformed_rows (rows : list (list string)) :
  (∀ transitions row,
     malformed_row row = true → read_row transitions row = transitions)
  ∧ (∀ transitions row,
       malformed_row row = false →
       ∃ key to, row_transition row = Some (key, to)
                 ∧ read_row transitions row
                   = setdefault_append key to transitions)
  ∧ read_nfa_transitions_csv rows
    = read_nfa_transitions_csv (filter (λ row, malformed_row row = false) rows)
  ∧ (∀ key,
       read_nfa_transitions_csv rows !! key
       = match row_targets key rows with
         | [] => None
         | tos => Some tos
         end).
Proof.
  split; [|split; [|split]].
  - intros transitions row Hbad.
    destruct (read_row_spec transitions row) as [Hm ->].
    apply Hm in Hbad. by rewrite Hbad.
  - intros transitions row Hok.
    destruct (read_row_spec transitions row) as [Hm ->].
    destruct (row_transition row) as [[key to]|]; [by exists key, to|].
    assert (malformed_row row = true) by by apply Hm. congruence.
  - apply read_rows_filter.
  - intros key. unfold read_nfa_transitions_csv. rewrite read_rows_lookup.
    rewrite lookup_empty. by destruct (row_targets key rows).
Qed.

(** C9, as the code has it: a row of three fields with integer endpoints
    and an Input field of more than one character is kept; its symbol is the
    first character of the field once the whitespace around it is stripped,
    and epsilon when nothing is left. *)
Theorem read_truncates_input (transitions : gmap (Z * option string) (list Z))
    (from_field input_field to_field : string) (frm to : Z) :
  py_int from_field = Some frm → py_int to_field = Some to →
  (1 < String.length input_field)%nat →
  read_row transitions [from_field; input_field; to_field]
  = setdefault_append (frm, first_symbol (strip input_field)) to transitions
  ∧ (∀ c rest, strip input_field = String c rest →
               first_symbol (strip input_field) = Some (String c EmptyString))
  ∧ (strip input_field = EmptyString →
     first_symbol (strip input_field) = None).
Proof.
  intros Hf Ht _. split; [|split].
  - rewrite (proj2 (read_row_spec transitions _)). simpl. by rewrite Hf, Ht.
  - by intros c rest ->.
  - by intros ->.
Qed.

Lemma read_truncates_input_witness :
  read_row ∅ ["0"; "ab"; "1"] = setdefault_append (0, Some "a") 1 ∅.
Proof.
  refine (proj1 (read_truncates_input ∅ "0" "ab" "1" 0 1 _ _ _));
    [reflexivity|reflexivity|simpl; lia].
Defined.

(** C9, as stated, fails: the symbol of the row [0, " ab", 1] is not the
    first character of its Input field, a space, but [a]. *)
Lemma read_symbol_not_first_character :
  String.get 0 " ab" = Some " "%char
  ∧ read_nfa_transitions_csv [["0"; " ab"; "1"]] !! (0, Some " ") = None
  ∧ read_nfa_transitions_csv [["0"; " ab"; "1"]] !! (0, Some "a") = Some [1].
Proof. repeat split; vm_compute; reflexivity. Qed.

Lemma read_skips_malformed_rows_witness :
  read_row ∅ ["// note"; "a"; "1"] = ∅
  ∧ read_row ∅ ["0"; "a"; "x"] = ∅
  ∧ read_row ∅ ["0"; "a"] = ∅.
Proof.
  pose proof (proj1 (read_skips_malformed_rows [])) as Hskip.
  repeat split; apply Hskip; reflexivity.
Defined.

(** * Further properties of the conversion *)

(** ** What every state of a run satisfies, beyond [build_inv] *)

Section run_facts.
Context `{PS : PySet}.

Lemma move_nfa_move_union nfa (S : pyset) a :
  elems (move_nfa nfa S a) = move_union nfa (elems S) a.
Proof.
  apply set_eq. intros x. unfold move_union.
  rewrite elem_of_move_nfa, elem_of_union_list. split.
  - intros (s & Hs & Hx). exists (list_to_set (targets nfa s (Some a))).
    split; [|by apply elem_of_list_to_set].
    apply list_elem_of_fmap. exists s. by rewrite elem_of_elements.
  - intros (X & HX & Hx). apply list_elem_of_fmap in HX as (s & -> & Hs).
    exists s. split; [by apply elem_of_elements|].
    by apply elem_of_list_to_set in Hx.
Qed.

Lemma elem_of_move_union nfa (T : gset Z) a x :
  x ∈ move_union nfa T a ↔ ∃ s, s ∈ T ∧ x ∈ targets nfa s (Some a).
Proof.
  unfold move_union. rewrite elem_of_union_list. split.
  - intros (X & HX & Hx). apply list_elem_of_fmap in HX as (s & -> & Hs).
    exists s. split; [by apply elem_of_elements|].
    by apply elem_of_list_to_set in Hx.
  - intros (s & Hs & Hx). exists (list_to_set (targets nfa s (Some a))).
    split; [|by apply elem_of_list_to_set].
    apply list_elem_of_fmap. exists s. by rewrite elem_of_elements.
Qed.

(** The ways in which one pass of the body of [for symbol in alphabet]
    changes the locals. *)
Lemma process_symbol_cases nfa current_index (current_state_set : pyset) b a :
  let b' := process_symbol nfa current_index current_state_set b a in
  (move_union nfa (elems current_state_set) a = ∅ ∧ b' = b)
  ∨ (move_union nfa (elems current_state_set) a ≠ ∅
     ∧ ∃ (next_closure : pyset) (j : nat),
         (∀ x, x ∈ elems next_closure
               ↔ eps_reach nfa (move_union nfa (elems current_state_set) a) x)
         ∧ dfa_transitions b'
           = dict_set (current_index, a) j (dfa_transitions b)
         ∧ ((state_mapping b !! elems next_closure = Some j
             ∧ dfa_states b' = dfa_states b
             ∧ dfa_accept b' = dfa_accept b
             ∧ queue b' = queue b
             ∧ state_mapping b' = state_mapping b)
            ∨ (state_mapping b !! elems next_closure = None
               ∧ j = length (dfa_states b)
               ∧ dfa_states b' = dfa_states b ++ [next_closure]
               ∧ dfa_accept b' = record_accept nfa j next_closure (dfa_accept b)
               ∧ queue b' = queue b ++ [j]
               ∧ state_mapping b'
                 = <[ elems next_closure := j ]> (state_mapping b)))).
Proof.
  intros b'. subst b'. unfold process_symbol. cbv zeta.
  assert (elems (move_nfa nfa (pyset_copy current_state_set) a)
          = move_union nfa (elems current_state_set) a) as Hmove
    by by rewrite move_nfa_move_union, elems_copy.
  unfold pyset_truthy. rewrite Hmove.
  destruct (decide (move_union nfa (elems current_state_set) a = ∅))
    as [Hempty|Hne].
  { left. rewrite bool_decide_eq_false_2; [done|]. by intros ?. }
  right. split; [done|]. rewrite bool_decide_eq_true_2 by done. simpl.
  assert (∀ x, x ∈ elems (pyset_copy (epsilon_closure nfa
                   (move_nfa nfa (pyset_copy current_state_set) a)))
               ↔ eps_reach nfa (move_union nfa (elems current_state_set) a) x)
    as Hnext.
  { intros x. by rewrite elems_copy, elem_of_epsilon_closure, Hmove. }
  revert Hnext.
  generalize (pyset_copy (epsilon_closure nfa
                (move_nfa nfa (pyset_copy current_state_set) a))).
  intros next_closure Hnext.
  destruct (state_mapping b !! elems next_closure) as [j|] eqn:Hseen.
  - exists next_closure, j. split; [done|]. split; [done|]. by left.
  - exists next_closure, (length (dfa_states b)). split; [done|].
    split; [done|]. by right.
Qed.

Lemma eps_reach_closed nfa (T : gset Z) (S : gset Z) :
  (∀ x, x ∈ S ↔ eps_reach nfa T x) → eps_closed nfa S.
Proof.
  intros HS s x Hs Hstep. apply HS. apply HS in Hs as (t & Ht & Hrtc).
  exists t. split; [done|]. by eapply rtc_r.
Qed.

Lemma eps_reach_nonempty nfa (T : gset Z) (S : gset Z) :
  (∀ x, x ∈ S ↔ eps_reach nfa T x) → T ≠ ∅ → S ≠ ∅.
Proof.
  intros HS HT HSe. apply set_choose_L in HT as [t Ht].
  assert (t ∈ S) as Hin by (apply HS; exists t; split; [done|constructor]).
  rewrite HSe in Hin. by apply elem_of_empty in Hin.
Qed.

Lemma move_union_targets nfa (T : gset Z) a :
  move_union nfa T a ⊆ all_targets nfa.
Proof.
  intros x (s & _ & Hx)%elem_of_move_union. by eapply targets_all_targets.
Qed.

Lemma eps_reach_states nfa (T S : gset Z) :
  (∀ x, x ∈ S ↔ eps_reach nfa T x) → T ⊆ nfa_states nfa → S ⊆ nfa_states nfa.
Proof.
  intros HS HT x Hx. apply HS, eps_reach_targets in Hx as [Hx|Hx]; [auto|].
  by apply elem_of_union_r.
Qed.

Lemma dict_set_keys_NoDup {K V} `{EqDecision K} (k : K) (v : V) d :
  NoDup (map fst d) → NoDup (map fst (dict_set k v d)).
Proof.
  intros Hnd. rewrite dict_set_keys. case_decide; [done|].
  apply NoDup_app. split; [done|]. split; [|apply NoDup_singleton].
  intros x Hx Hxk. apply list_elem_of_singleton in Hxk as ->. done.
Qed.

Lemma record_accept_keys_sorted nfa (closure : pyset) acc n :
  StronglySorted lt (map fst acc) → Forall (λ i, (i < n)%nat) (map fst acc) →
  StronglySorted lt (map fst (record_accept nfa n closure acc))
  ∧ Forall (λ i, (i < S n)%nat) (map fst (record_accept nfa n closure acc)).
Proof.
  intros Hs Hlt. unfold record_accept. destruct (pyset_truthy _).
  - rewrite dict_set_keys. rewrite decide_False.
    + split.
      * clear -Hs Hlt. induction (map fst acc) as [|k l IH]; simpl.
        { repeat constructor. }
        apply StronglySorted_inv in Hs as [Hs Hk].
        apply Forall_cons in Hlt as [Hkn Hlt].
        constructor; [by apply IH|]. apply Forall_app. split; [done|].
        by repeat constructor.
      * apply Forall_app. split; [|repeat constructor; lia].
        eapply Forall_impl; [exact Hlt|]. simpl. lia.
    + intros Hin. eapply Forall_forall in Hlt; [|exact Hin]. lia.
  - split; [done|]. eapply Forall_impl; [exact Hlt|]. simpl. lia.
Qed.

Lemma accept_keys_bound nfa (b : build PS) :
  build_inv nfa b →
  Forall (λ i, (i < length (dfa_states b))%nat) (map fst (dfa_accept b)).
Proof.
  intros Hinv. apply Forall_forall. intros i Hi.
  destruct (decide (i < length (dfa_states b))%nat); [done|].
  pose proof (binv_accept_fresh _ _ Hinv i ltac:(lia)) as Hnone.
  by apply dict_get_None_keys in Hnone.
Qed.

Lemma initial_states_inv nfa : states_inv nfa (initial_build nfa).
Proof.
  unfold initial_build. cbv zeta.
  assert (∀ x, x ∈ elems (pyset_copy (epsilon_closure nfa
                   (pyset_add (nfa_start nfa) pyset_empty)))
               ↔ eps_reach nfa {[ nfa_start nfa ]} x) as Hstart.
  { intros x. rewrite elems_copy, elem_of_epsilon_closure.
    rewrite elems_add, elems_empty. by rewrite union_empty_r_L. }
  revert Hstart.
  generalize (pyset_copy (epsilon_closure nfa
                (pyset_add (nfa_start nfa) pyset_empty))).
  intros start_closure Hstart. split; simpl.
  - intros i S [-> <-]%list_lookup_singleton_Some.
    by eapply eps_reach_closed.
  - intros i S [-> <-]%list_lookup_singleton_Some.
    eapply eps_reach_nonempty; [done|]. set_solver.
  - intros i S [-> <-]%list_lookup_singleton_Some.
    eapply eps_reach_states; [done|]. unfold nfa_states. set_solver.
  - exists start_closure. split; [done|]. intros x. rewrite Hstart.
    unfold eps_reach. setoid_rewrite elem_of_singleton. naive_solver.
  - done.
  - constructor.
  - unfold record_accept. destruct (pyset_truthy _); simpl;
      repeat constructor.
Qed.

Lemma process_symbol_states_inv nfa current_index current_state_set b a :
  dfa_states b !! current_index = Some current_state_set →
  build_inv nfa b → states_inv nfa b →
  states_inv nfa (process_symbol nfa current_index current_state_set b a).
Proof.
  intros Hcur Hinv Hs.
  destruct (process_symbol_cases nfa current_index current_state_set b a)
    as [[_ ->]|(Hne & next_closure & j & Hnext & Htr & Hcase)]; [done|].
  destruct Hs as [Hclosed Hnonempty Hstates Hstart Htrans Hkeys Hacc].
  destruct Hcase as [(Hseen & Hds & Hda & Hq & Hsm)
                    |(Hseen & -> & Hds & Hda & Hq & Hsm)].
  - split; rewrite ?Hds, ?Hda, ?Htr; try done.
    + intros i s k. rewrite dict_get_set.
      destruct (decide ((i, s) = (current_index, a))) as [[= -> ->]|_];
        [|apply Htrans].
      intros [= <-].
      apply (binv_mapping _ _ Hinv) in Hseen as (S' & Hl & HS').
      exists current_state_set, S'. split; [done|]. split; [done|].
      split; [done|]. intros x. by rewrite HS'.
    + by apply dict_set_keys_NoDup.
  - assert (∀ i S, dfa_states b !! i = Some S →
                   (dfa_states b ++ [next_closure]) !! i = Some S) as Hext
      by (intros; by apply lookup_app_l_Some).
    assert (∀ i S, (dfa_states b ++ [next_closure]) !! i = Some S →
                   dfa_states b !! i = Some S ∨ S = next_closure) as Hcases.
    { intros i S [?|[_ [_ <-]%list_lookup_singleton_Some]]%lookup_app_Some;
        auto. }
    split; rewrite ?Hds, ?Hda, ?Htr.
    + intros i S [Hl| ->]%Hcases; [by eapply Hclosed|].
      by eapply eps_reach_closed.
    + intros i S [Hl| ->]%Hcases; [by eapply Hnonempty|].
      by eapply eps_reach_nonempty.
    + intros i S [Hl| ->]%Hcases; [by eapply Hstates|].
      eapply eps_reach_states; [done|].
      etrans; [apply move_union_targets|]. unfold nfa_states. set_solver.
    + destruct Hstart as (S0 & Hl0 & HS0). exists S0. split; [auto|done].
    + intros i s k. rewrite dict_get_set.
      destruct (decide ((i, s) = (current_index, a))) as [[= -> ->]|_].
      * intros [= <-]. exists current_state_set, next_closure.
        split; [auto|]. split; [|done].
        by rewrite lookup_app_r, Nat.sub_diag.
      * intros (S & S' & Hi & Hk & Hrest)%Htrans. exists S, S'. auto.
    + by apply dict_set_keys_NoDup.
    + apply record_accept_keys_sorted; [done|]. by eapply accept_keys_bound.
Qed.

Lemma build_step_states_inv nfa b b' :
  build_step nfa b b' → build_inv nfa b → states_inv nfa b →
  states_inv nfa b'.
Proof.
  intros [? ? ? Hq|? ? ? ? Hl] Hinv Hs.
  - by destruct Hs.
  - by apply process_symbol_states_inv.
Qed.

Lemma reachable_states_inv nfa b : reachable nfa b → states_inv nfa b.
Proof.
  unfold reachable. intros Hr.
  enough (build_inv nfa b ∧ states_inv nfa b) as [_ ?] by done.
  eapply (rtc_ind_r (λ b, build_inv nfa b ∧ states_inv nfa b)
            (initial_build nfa)); [| |exact Hr].
  - split; [apply initial_build_inv|apply initial_states_inv].
  - intros y z _ Hstep [Hy1 Hy2]. split; [by eapply build_step_inv|].
    by eapply build_step_states_inv.
Qed.

End run_facts.

(** ** Runs of the NFA *)

Lemma nfa_path_eps_steps nfa m q w x :
  rtc (eps_step nfa) m q → nfa_path nfa q w x → nfa_path nfa m w x.
Proof.
  induction 1 as [|m m' q Hstep _ IH]; [done|].
  intros Hp. eapply path_eps; [exact Hstep|]. by apply IH.
Qed.

Lemma nfa_path_nil_closed nfa (T : gset Z) q x :
  eps_closed nfa T → q ∈ T → nfa_path nfa q [] x → x ∈ T.
Proof.
  intros HT Hq Hp. remember [] as w eqn:Hw.
  induction Hp as [q|q q' w r Hstep _ IH|]; [done| |done].
  apply IH; [|done]. by eapply HT.
Qed.

Lemma nfa_path_cons_move nfa (T : gset Z) q a w x :
  eps_closed nfa T → q ∈ T → nfa_path nfa q (a :: w) x →
  ∃ m, m ∈ move_union nfa T a ∧ nfa_path nfa m w x.
Proof.
  intros HT Hq Hp. remember (a :: w) as w' eqn:Hw.
  induction Hp as [q|q q' w' r Hstep _ IH|q a' q' w' r Hsym Hp _];
    [done| |].
  - apply IH; [|done]. by eapply HT.
  - injection Hw as -> ->. exists q'. split; [|done].
    apply elem_of_move_union. by exists q.
Qed.

Section simulation.
Context `{PS : PySet}.

Lemma explored_ext nfa b (P Q : nat → string → Prop) :
  (∀ i a, P i a ↔ Q i a) → explored nfa b P → explored nfa b Q.
Proof.
  intros HPQ [H1 H2 H3]. split.
  - intros i a ?%HPQ. eauto.
  - intros i a j ?. apply HPQ. eauto.
  - intros i a S ?%HPQ. eauto.
Qed.

Lemma process_symbol_lookup nfa current_index current_state_set b a i S :
  dfa_states b !! i = Some S →
  dfa_states (process_symbol nfa current_index current_state_set b a) !! i
  = Some S.
Proof.
  intros Hl.
  destruct (process_symbol_cases nfa current_index current_state_set b a)
    as [[_ ->]|(_ & nc & j & _ & _ & [(_ & -> & _)|(_ & _ & -> & _)])];
    [done|done|]. by apply lookup_app_l_Some.
Qed.

Lemma process_symbol_length nfa current_index current_state_set b a :
  (length (dfa_states b)
   ≤ length (dfa_states
               (process_symbol nfa current_index current_state_set b a)))%nat.
Proof.
  destruct (process_symbol_cases nfa current_index current_state_set b a)
    as [[_ ->]|(_ & nc & j & _ & _ & [(_ & -> & _)|(_ & _ & -> & _)])];
    [done|done|]. rewrite length_app. lia.
Qed.

Lemma process_symbol_explored nfa current_index current_state_set b a P :
  dfa_states b !! current_index = Some current_state_set →
  explored nfa b P →
  explored nfa (process_symbol nfa current_index current_state_set b a)
    (λ i s, P i s ∨ (i = current_index ∧ s = a)).
Proof.
  intros Hcur [Hbound Hkeys Hmissing].
  pose proof (process_symbol_length nfa current_index current_state_set b a)
    as Hlen.
  pose proof (process_symbol_lookup nfa current_index current_state_set b a)
    as Hlook.
  assert (∀ i S, P i a ∨ True → (i < length (dfa_states b))%nat →
                 dfa_states (process_symbol nfa current_index
                               current_state_set b a) !! i = Some S →
                 dfa_states b !! i = Some S) as Hback.
  { intros i S _ Hi Hl.
    destruct (lookup_lt_is_Some_2 (dfa_states b) i Hi) as [S' HS'].
    rewrite (Hlook _ _ HS') in Hl. congruence. }
  destruct (process_symbol_cases nfa current_index current_state_set b a)
    as [[Hempty Heq]|(Hne & nc & j & _ & Htr & _)].
  - rewrite Heq in *. split.
    + intros i s [?|[-> ->]]; [eauto|]. by eapply lookup_lt_Some.
    + intros i s k ?. left. eauto.
    + intros i s S [?|[-> ->]] Hl Hnone; [eauto|]. congruence.
  - split.
    + intros i s [?%Hbound|[-> ->]]; [lia|].
      apply lookup_lt_Some in Hcur. lia.
    + intros i s k. rewrite Htr, dict_get_set.
      destruct (decide ((i, s) = (current_index, a))) as [[= -> ->]|_];
        [by right|]. intros ?. left. eauto.
    + intros i s S HP Hl. rewrite Htr, dict_get_set.
      destruct (decide ((i, s) = (current_index, a))) as [[= -> ->]|Hne'];
        [done|].
      destruct HP as [HP|[-> ->]]; [|done].
      intros Hnone. eapply Hmissing; [exact HP| |exact Hnone].
      apply Hback; [by right|eauto|done].
Qed.

Lemma for_symbol_explored nfa current_index current_state_set symbols b P :
  dfa_states b !! current_index = Some current_state_set →
  explored nfa b P →
  explored nfa
    (fold_left (process_symbol nfa current_index current_state_set) symbols b)
    (λ i s, P i s ∨ (i = current_index ∧ s ∈ symbols)).
Proof.
  revert b P. induction symbols as [|a symbols IH]; intros b P Hcur Hex;
    simpl.
  - eapply explored_ext; [|exact Hex]. intros i s. split; [by left|].
    intros [?|[_ []%elem_of_nil]]. done.
  - eapply explored_ext;
      [|apply IH; [by apply process_symbol_lookup
                  |by apply process_symbol_explored]].
    intros i s. simpl. rewrite elem_of_cons. naive_solver.
Qed.

Lemma process_symbol_queue_shape nfa current_index current_state_set b a p :
  queue_shape b p →
  queue_shape (process_symbol nfa current_index current_state_set b a) p.
Proof.
  intros [Hq Hp].
  destruct (process_symbol_cases nfa current_index current_state_set b a)
    as [[_ ->]|(_ & nc & j & _ & _
                & [(_ & Hds & _ & Hq' & _)|(_ & -> & Hds & _ & Hq' & _)])];
    [done| |]; unfold queue_shape; rewrite Hds, Hq'; [done|].
  rewrite length_app. simpl. split; [|lia]. rewrite Hq.
  replace (length (dfa_states b) + 1 - p)%nat
    with (S (length (dfa_states b) - p)) by lia.
  rewrite seq_S. do 2 f_equal. lia.
Qed.

Lemma for_symbol_queue_shape nfa current_index current_state_set symbols b p :
  queue_shape b p →
  queue_shape
    (fold_left (process_symbol nfa current_index current_state_set) symbols b)
    p.
Proof.
  revert b. induction symbols as [|a symbols IH]; intros b Hq; simpl;
    [done|]. by apply IH, process_symbol_queue_shape.
Qed.

(** When [while queue] ends, every state id has been through every symbol
    of the alphabet. *)
Lemma construction_loop_explored nfa alphabet fuel b b' p :
  construction_loop nfa alphabet fuel b = Some b' →
  explored nfa b (λ i a, (i < p)%nat ∧ a ∈ alphabet) →
  queue_shape b p →
  explored nfa b'
    (λ i a, (i < length (dfa_states b'))%nat ∧ a ∈ alphabet).
Proof.
  revert b p. induction fuel as [|fuel IH]; intros b p Hrun Hex [Hq Hp];
    simpl in Hrun.
  - destruct (queue b) eqn:Hqb; [|done]. simplify_eq.
    destruct (decide (length (dfa_states b') - p = 0)%nat) as [Hz|Hnz].
    + eapply explored_ext; [|exact Hex]. intros i a. simpl.
      assert (p = length (dfa_states b')) as -> by lia. done.
    + destruct (length (dfa_states b') - p)%nat; [done|]. done.
  - destruct (queue b) as [|current_index rest] eqn:Hqb.
    { simplify_eq.
      destruct (length (dfa_states b') - p)%nat eqn:Hz; [|done].
      eapply explored_ext; [|exact Hex]. intros i a. simpl.
      assert (p = length (dfa_states b')) as -> by lia. done. }
    destruct (dfa_states b !! current_index) as [current_state_set|] eqn:Hl;
      [|done].
    destruct (length (dfa_states b) - p)%nat as [|n] eqn:Hn; [done|].
    simpl in Hq. injection Hq as -> ->.
    eapply (IH _ (S p)); [exact Hrun| |].
    + eapply explored_ext;
        [|apply for_symbol_explored; [exact Hl|]].
      * intros i a. simpl. instantiate (1 := λ i a, (i < p)%nat ∧ a ∈ alphabet).
        simpl. split.
        -- intros [[? ?]|[-> ?]]; split; auto; lia.
        -- intros [Hi Ha]. destruct (decide (i = p)) as [->|]; [by right|].
           left. split; [lia|done].
      * destruct Hex as [H1 H2 H3]. by split.
    + apply for_symbol_queue_shape. split; simpl; [|lia].
      f_equal. lia.
Qed.

Lemma initial_explored nfa (alphabet : list string) :
  explored nfa (initial_build nfa) (λ i a, (i < 0)%nat ∧ a ∈ alphabet)
  ∧ queue_shape (initial_build nfa) 0.
Proof.
  split; [split|].
  - intros i a [? _]. lia.
  - done.
  - intros i a S [? _]. lia.
  - split; [done|]. simpl. lia.
Qed.

Lemma subset_construction_explored nfa alphabet fuel b :
  subset_construction nfa alphabet fuel = Some b →
  explored nfa b (λ i a, (i < length (dfa_states b))%nat ∧ a ∈ alphabet).
Proof.
  intros Hrun. destruct (initial_explored nfa alphabet) as [Hex Hq].
  by eapply construction_loop_explored.
Qed.

(** A run of the DFA table follows the runs of the NFA: from a state whose
    set is [S], over [w], it ends in the state whose set holds the NFA
    states that runs over [w] from [S] end in. *)
Lemma dfa_run_sound nfa (b : build PS) w :
  states_inv nfa b → ∀ i S j,
  dfa_states b !! i = Some S →
  dfa_run (dfa_transitions b) i w = Some j →
  ∃ S', dfa_states b !! j = Some S'
        ∧ ∀ x, x ∈ elems S' ↔ ∃ q, q ∈ elems S ∧ nfa_path nfa q w x.
Proof.
  intros Hs. induction w as [|a w IH]; intros i S j Hi Hrun; simpl in Hrun.
  - simplify_eq. exists S. split; [done|]. intros x. split.
    + intros Hx. exists x. split; [done|constructor].
    + intros (q & Hq & Hp).
      eapply nfa_path_nil_closed; [|exact Hq|exact Hp].
      by eapply (sinv_closed _ _ Hs).
  - destruct (dict_get (i, a) (dfa_transitions b)) as [k|] eqn:Hk; [|done].
    destruct (sinv_transitions _ _ Hs _ _ _ Hk)
      as (S1 & Sk & Hi' & Hlk & _ & HSk).
    assert (S1 = S) as -> by congruence.
    destruct (IH _ _ _ Hlk Hrun) as (S' & Hj & HS').
    exists S'. split; [done|]. intros x. rewrite HS'. split.
    + intros (q' & Hq' & Hp). apply HSk in Hq' as (m & Hm & Hrtc).
      apply elem_of_move_union in Hm as (q & Hq & Hm).
      exists q. split; [done|]. eapply path_symbol; [exact Hm|].
      by eapply nfa_path_eps_steps.
    + intros (q & Hq & Hp).
      destruct (nfa_path_cons_move nfa (elems S) q a w x) as (m & Hm & Hp');
        [by eapply (sinv_closed _ _ Hs)|done|done|].
      exists m. split; [|done]. apply HSk. exists m. split; [done|constructor].
Qed.

Lemma dfa_run_complete nfa (alphabet : list string) (b : build PS) w :
  states_inv nfa b →
  explored nfa b (λ i a, (i < length (dfa_states b))%nat ∧ a ∈ alphabet) →
  Forall (λ a, a ∈ alphabet ∨ ∀ q, targets nfa q (Some a) = []) w → ∀ i S,
  dfa_states b !! i = Some S →
  dfa_run (dfa_transitions b) i w = None →
  ∀ q x, q ∈ elems S → ¬ nfa_path nfa q w x.
Proof.
  intros Hs Hex. induction 1 as [|a w Ha Hw IH]; intros i S Hi Hrun; [done|].
  simpl in Hrun. intros q x Hq Hp.
  destruct (nfa_path_cons_move nfa (elems S) q a w x) as (m & Hm & Hp');
    [by eapply (sinv_closed _ _ Hs)|done|done|].
  destruct (dict_get (i, a) (dfa_transitions b)) as [k|] eqn:Hk.
  - destruct (sinv_transitions _ _ Hs _ _ _ Hk)
      as (S1 & Sk & Hi' & Hlk & _ & HSk).
    assert (S1 = S) as -> by congruence.
    eapply (IH _ _ Hlk Hrun m x); [|done].
    apply HSk. exists m. split; [done|constructor].
  - destruct Ha as [Ha|Ha].
    + assert (move_union nfa (elems S) a = ∅) as Hempty.
      { eapply (ex_missing _ _ _ Hex); [|exact Hi|exact Hk].
        split; [by eapply lookup_lt_Some|done]. }
      rewrite Hempty in Hm. by apply elem_of_empty in Hm.
    + apply elem_of_move_union in Hm as (s & _ & Hm).
      rewrite Ha in Hm. by apply elem_of_nil in Hm.
Qed.

Lemma start_paths nfa (S0 : gset Z) w x :
  (∀ y, y ∈ S0 ↔ rtc (eps_step nfa) (nfa_start nfa) y) →
  (∃ q, q ∈ S0 ∧ nfa_path nfa q w x) ↔ nfa_path nfa (nfa_start nfa) w x.
Proof.
  intros HS0. split.
  - intros (q & Hq%HS0 & Hp). by eapply nfa_path_eps_steps.
  - intros Hp. exists (nfa_start nfa). split; [|done]. apply HS0. constructor.
Qed.

End simulation.

(** ** The DFA against the NFA *)

Lemma dict_get_elem_of {K V} `{EqDecision K} (k : K) (v : V) (d : list (K * V)) :
  NoDup (map fst d) → (k, v) ∈ d ↔ dict_get k d = Some v.
Proof.
  induction d as [|[k0 v0] d IH]; intros Hnd; cbn [dict_get].
  - split; [by intros ?%elem_of_nil|done].
  - cbn [map fst] in Hnd. apply NoDup_cons in Hnd as [Hk0 Hnd].
    rewrite elem_of_cons. destruct (decide (k = k0)) as [->|Hne].
    + split; [|intros [= ->]; by left].
      intros [[= ->]|Hin]; [done|]. exfalso. apply Hk0.
      apply list_elem_of_fmap. by exists (k0, v).
    + rewrite <- IH by done. split; [|by right].
      intros [[= -> _]|Hin]; done.
Qed.

Lemma size_list_to_set_le (l : list (gset Z)) :
  (size (list_to_set l : gset (gset Z)) ≤ length l)%nat.
Proof.
  induction l as [|x l IH]; [by rewrite list_to_set_nil, size_empty|].
  rewrite list_to_set_cons, size_union_alt.
  rewrite (size_singleton (C:=gset (gset Z))). cbn [length].
  assert (size (list_to_set l ∖ {[ x ]} : gset (gset Z))
          ≤ size (list_to_set l : gset (gset Z)))%nat
    by (apply subseteq_size; set_solver).
  lia.
Qed.

Lemma size_subsets_of (l : list Z) : (size (subsets_of l) ≤ 2 ^ length l)%nat.
Proof.
  induction l as [|x l IH]; cbn [subsets_of length].
  - by rewrite (size_singleton (C:=gset (gset Z))).
  - rewrite size_union_alt.
    assert (size (set_map (D:=gset (gset Z)) (λ T : gset Z, {[ x ]} ∪ T)
                    (subsets_of l) ∖ subsets_of l)
            ≤ size (subsets_of l))%nat.
    { etrans; [apply subseteq_size; apply subseteq_difference_l; reflexivity|].
      unfold set_map. etrans; [apply size_list_to_set_le|].
      by rewrite length_fmap. }
    rewrite Nat.pow_succ_r'. lia.
Qed.

Section conversion_facts.
Context `{PS : PySet}.

(** A transition once recorded keeps its target. *)
Lemma process_symbol_transitions nfa current_index current_state_set b a k j :
  dfa_states b !! current_index = Some current_state_set →
  build_inv nfa b → states_inv nfa b →
  dict_get k (dfa_transitions b) = Some j →
  dict_get k (dfa_transitions
                (process_symbol nfa current_index current_state_set b a))
  = Some j.
Proof.
  intros Hcur Hinv Hs Hk.
  destruct (process_symbol_cases nfa current_index current_state_set b a)
    as [[_ ->]|(Hne & nc & j' & Hnc & -> & Hcase)]; [done|].
  rewrite dict_get_set. destruct (decide (k = (current_index, a))) as [->|];
    [|done].
  destruct (sinv_transitions _ _ Hs _ _ _ Hk) as (S & S' & HS & HS' & _ & Hx).
  assert (S = current_state_set) as -> by congruence.
  assert (elems S' = elems nc) as Heq.
  { apply set_eq. intros x. by rewrite Hx, Hnc. }
  assert (state_mapping b !! elems nc = Some j) as Hseen.
  { apply (binv_mapping _ _ Hinv). by exists S'. }
  destruct Hcase as [(Hseen' & _)|(Hseen' & _)]; congruence.
Qed.

Lemma dfa_run_transitions_mono (t t' : list ((nat * string) * nat)) i w j :
  (∀ k v, dict_get k t = Some v → dict_get k t' = Some v) →
  dfa_run t i w = Some j → dfa_run t' i w = Some j.
Proof.
  intros Hmono. revert i. induction w as [|a w IH]; intros i; simpl; [done|].
  destruct (dict_get (i, a) t) as [k|] eqn:Hk; [|done].
  rewrite (Hmono _ _ Hk). apply IH.
Qed.

Lemma dfa_run_snoc (t : list ((nat * string) * nat)) i w a j k :
  dfa_run t i w = Some j → dict_get (j, a) t = Some k →
  dfa_run t i (w ++ [a]) = Some k.
Proof.
  revert i. induction w as [|c w IH]; intros i; simpl.
  - intros [= ->] ->. done.
  - destruct (dict_get (i, c) t); [|done]. apply IH.
Qed.

Lemma process_symbol_accessible nfa current_index current_state_set b a :
  dfa_states b !! current_index = Some current_state_set →
  build_inv nfa b → states_inv nfa b → accessible b →
  accessible (process_symbol nfa current_index current_state_set b a).
Proof.
  intros Hcur Hinv Hs Hacc i Hi.
  pose proof (process_symbol_transitions nfa current_index current_state_set
                b a) as Hmono.
  destruct (process_symbol_cases nfa current_index current_state_set b a)
    as [[_ Heq]|(Hne & nc & j & Hnc & Htr & Hcase)].
  { rewrite Heq in *. by apply Hacc. }
  destruct (decide (i < length (dfa_states b))%nat) as [Hold|Hnew].
  - destruct (Hacc i Hold) as [w Hw]. exists w.
    eapply dfa_run_transitions_mono; [|exact Hw]. intros k v. by apply Hmono.
  - destruct Hcase as [(_ & Hds & _)|(_ & -> & Hds & _)];
      rewrite Hds in Hi; [lia|].
    rewrite length_app in Hi. simpl in Hi.
    assert (i = length (dfa_states b)) as -> by lia.
    destruct (Hacc current_index) as [w Hw]; [by eapply lookup_lt_Some|].
    exists (w ++ [a]). eapply dfa_run_snoc.
    + eapply dfa_run_transitions_mono; [|exact Hw]. intros k v.
      by apply Hmono.
    + rewrite Htr, dict_get_set. by rewrite decide_True.
Qed.

Lemma reachable_accessible nfa b : reachable nfa b → accessible b.
Proof.
  unfold reachable. intros Hr.
  enough (build_inv nfa b ∧ states_inv nfa b ∧ accessible b)
    as (_ & _ & ?) by done.
  eapply (rtc_ind_r (λ b, build_inv nfa b ∧ states_inv nfa b ∧ accessible b)
            (initial_build nfa)); [| |exact Hr].
  - split; [apply initial_build_inv|]. split; [apply initial_states_inv|].
    intros i Hi. simpl in Hi. exists []. simpl. f_equal. lia.
  - intros y z _ Hstep (Hy1 & Hy2 & Hy3).
    split; [by eapply build_step_inv|].
    split; [by eapply build_step_states_inv|].
    destruct Hstep as [? ? ? Hq|? ? ? ? Hl]; [done|].
    by eapply process_symbol_accessible.
Qed.

(** X1: the DFA table follows the NFA.  On a word over the alphabet, the
    table either leads from state 0 to the state whose set holds exactly the
    NFA states in which runs over the word from the start state end, or it
    has no run and the NFA has none either. *)
Theorem subset_construction_simulates (nfa : NFA) (alphabet : list string)
    (fuel : nat) (b : build PS) (w : list string) :
  subset_construction nfa alphabet fuel = Some b →
  Forall (λ a, a ∈ alphabet) w →
  match dfa_run (dfa_transitions b) 0 w with
  | Some j =>
      ∃ S, dfa_states b !! j = Some S
           ∧ ∀ x, x ∈ elems S ↔ nfa_path nfa (nfa_start nfa) w x
  | None => ∀ x, ¬ nfa_path nfa (nfa_start nfa) w x
  end.
Proof.
  intros Hrun Hw.
  pose proof (subset_construction_reachable _ _ _ _ Hrun) as Hr.
  pose proof (reachable_states_inv _ _ Hr) as Hs.
  destruct (sinv_start _ _ Hs) as (S0 & Hl0 & HS0).
  destruct (dfa_run (dfa_transitions b) 0 w) as [j|] eqn:Hj.
  - destruct (dfa_run_sound nfa b w Hs _ _ _ Hl0 Hj) as (S & Hl & HS).
    exists S. split; [done|]. intros x. rewrite HS. by apply start_paths.
  - intros x Hp.
    eapply (dfa_run_complete nfa alphabet b w Hs
              (subset_construction_explored _ _ _ _ Hrun)
              (Forall_impl _ _ _ Hw (λ a Ha, or_introl Ha)) _ _ Hl0 Hj
              (nfa_start nfa) x); [|done].
    apply HS0. constructor.
Qed.

(** The DFA and the NFA agree on every word each of whose symbols is in the
    alphabet or is the symbol of no transition. *)
Lemma convert_language (nfa : NFA) (alphabet : list string)
    (fuel : nat) (dfa : DFA) (w : list string) :
  convert_nfa_to_dfa nfa alphabet fuel = Some dfa →
  Forall (λ a, a ∈ alphabet ∨ ∀ q, targets nfa q (Some a) = []) w →
  dfa_accepts dfa w ↔ nfa_accepts nfa w.
Proof.
  unfold convert_nfa_to_dfa. intros Hconv Hw.
  destruct (subset_construction nfa alphabet fuel) as [b|] eqn:Hrun; [|done].
  simpl in Hconv. injection Hconv as <-.
  pose proof (subset_construction_reachable _ _ _ _ Hrun) as Hr.
  pose proof (reachable_inv _ _ Hr) as Hinv.
  pose proof (reachable_states_inv _ _ Hr) as Hs.
  destruct (sinv_start _ _ Hs) as (S0 & Hl0 & HS0).
  unfold dfa_accepts, nfa_accepts, dfa_of_build. simpl.
  destruct (dfa_run (dfa_transitions b) 0 w) as [j|] eqn:Hj.
  - destruct (dfa_run_sound nfa b w Hs _ _ _ Hl0 Hj) as (S & Hl & HS).
    setoid_rewrite (start_paths nfa (elems S0) w) in HS; [|done].
    pose proof (binv_accept _ _ Hinv j S Hl) as Hacc.
    pose proof (dict_get_None_keys j (dfa_accept b)) as Hkeys.
    unfold accepting in Hacc. split.
    + intros (j' & [= <-] & Hin).
      destruct (decide (elems S ∩ dom (nfa_accept nfa) ≠ ∅)) as [Hne|_].
      * apply set_choose_L in Hne as [q Hq]. exists q.
        apply elem_of_intersection in Hq as [Hq1 Hq2]. split; [|done].
        by apply HS.
      * apply Hkeys in Hacc. done.
    + intros (q & Hp & Hq). exists j. split; [done|].
      destruct (decide (elems S ∩ dom (nfa_accept nfa) ≠ ∅)) as [_|He].
      * destruct (decide (j ∈ map fst (dfa_accept b))) as [|Hn]; [done|].
        apply Hkeys in Hn. congruence.
      * exfalso. apply He. apply HS in Hp. set_solver.
  - split; [by intros (? & ? & _)|].
    intros (q & Hp & _). exfalso.
    eapply (dfa_run_complete nfa alphabet b w Hs
              (subset_construction_explored _ _ _ _ Hrun)
              Hw _ _ Hl0 Hj
              (nfa_start nfa) q); [|done].
    apply HS0. constructor.
Qed.

(** X2: the DFA accepts the words over the alphabet that the NFA
    accepts. *)
Theorem convert_preserves_language (nfa : NFA) (alphabet : list string)
    (fuel : nat) (dfa : DFA) (w : list string) :
  convert_nfa_to_dfa nfa alphabet fuel = Some dfa →
  Forall (λ a, a ∈ alphabet) w →
  dfa_accepts dfa w ↔ nfa_accepts nfa w.
Proof.
  intros Hconv Hw. apply (convert_language nfa alphabet fuel dfa w Hconv).
  eapply Forall_impl; [exact Hw|]. intros a Ha. by left.
Qed.

(** X3: the table is sound and complete for the moves.  For a state [i]
    with set [S]: a transition on [a] exists only for a symbol of the
    alphabet with a non-empty move, and leads to the state whose set is the
    epsilon closure of that move; for a symbol of the alphabet, a missing
    transition means an empty move. *)
Theorem transitions_sound_and_complete (nfa : NFA) (alphabet : list string)
    (fuel : nat) (b : build PS) (i : nat) (S : pyset) (a : string) :
  subset_construction nfa alphabet fuel = Some b →
  dfa_states b !! i = Some S →
  (∀ j, dict_get (i, a) (dfa_transitions b) = Some j →
        a ∈ alphabet
        ∧ move_union nfa (elems S) a ≠ ∅
        ∧ ∃ S', dfa_states b !! j = Some S'
                ∧ ∀ x, x ∈ elems S'
                       ↔ eps_reach nfa (move_union nfa (elems S) a) x)
  ∧ (a ∈ alphabet →
     dict_get (i, a) (dfa_transitions b) = None →
     move_union nfa (elems S) a = ∅).
Proof.
  intros Hrun Hl.
  pose proof (subset_construction_reachable _ _ _ _ Hrun) as Hr.
  pose proof (reachable_states_inv _ _ Hr) as Hs.
  pose proof (subset_construction_explored _ _ _ _ Hrun) as Hex.
  split.
  - intros j Hj. destruct (ex_keys _ _ _ Hex _ _ _ Hj) as [_ Ha].
    destruct (sinv_transitions _ _ Hs _ _ _ Hj)
      as (S1 & S' & HS1 & HS' & Hne & Hx).
    assert (S1 = S) as -> by congruence. eauto.
  - intros Ha Hnone. eapply (ex_missing _ _ _ Hex); [|exact Hl|exact Hnone].
    split; [by eapply lookup_lt_Some|done].
Qed.

(** X4: the output is a well-formed DFA at every point of a run: no key of
    the transition table occurs twice, sources and targets are ids of
    discovered states, and the accept ids are ids of discovered states in
    strictly ascending order. *)
Theorem dfa_well_formed (nfa : NFA) (b : build PS) :
  reachable nfa b →
  NoDup (map fst (dfa_transitions b))
  ∧ (∀ i a j, ((i, a), j) ∈ dfa_transitions b →
              (i < length (dfa_states b))%nat
              ∧ (j < length (dfa_states b))%nat)
  ∧ StronglySorted lt (map fst (dfa_accept b))
  ∧ Forall (λ i, (i < length (dfa_states b))%nat) (map fst (dfa_accept b))
  ∧ (0 < length (dfa_states b))%nat.
Proof.
  intros Hr. pose proof (reachable_states_inv _ _ Hr) as Hs.
  pose proof (reachable_inv _ _ Hr) as Hinv.
  split; [apply (sinv_transition_keys _ _ Hs)|]. split; [|split; [|split]].
  - intros i a j Hin.
    apply dict_get_elem_of in Hin; [|apply (sinv_transition_keys _ _ Hs)].
    destruct (sinv_transitions _ _ Hs _ _ _ Hin) as (S & S' & HS & HS' & _).
    split; by eapply lookup_lt_Some.
  - apply (sinv_accept_keys _ _ Hs).
  - by eapply accept_keys_bound.
  - destruct (sinv_start _ _ Hs) as (S0 & Hl0 & _).
    by eapply lookup_lt_Some.
Qed.

(** X5: no state of the DFA is useless or empty.  The set of a discovered
    state is non-empty and closed under epsilon moves, the table leads to
    the state from state 0 on some word, and the set holds exactly the NFA
    states in which runs over that word end; state 0 is the epsilon closure
    of the start state. *)
Theorem dfa_states_accessible (nfa : NFA) (b : build PS) (i : nat) (S : pyset) :
  reachable nfa b → dfa_states b !! i = Some S →
  elems S ≠ ∅
  ∧ eps_closed nfa (elems S)
  ∧ (∃ w, dfa_run (dfa_transitions b) 0 w = Some i
          ∧ ∀ x, x ∈ elems S ↔ nfa_path nfa (nfa_start nfa) w x)
  ∧ (i = 0%nat → ∀ x, x ∈ elems S ↔ rtc (eps_step nfa) (nfa_start nfa) x).
Proof.
  intros Hr Hl. pose proof (reachable_states_inv _ _ Hr) as Hs.
  destruct (sinv_start _ _ Hs) as (S0 & Hl0 & HS0).
  split; [by eapply (sinv_nonempty _ _ Hs)|].
  split; [by eapply (sinv_closed _ _ Hs)|]. split.
  - destruct (reachable_accessible _ _ Hr i) as [w Hw];
      [by eapply lookup_lt_Some|].
    exists w. split; [done|].
    destruct (dfa_run_sound nfa b w Hs _ _ _ Hl0 Hw) as (S' & Hl' & HS').
    assert (S' = S) as -> by congruence.
    intros x. rewrite HS'. by apply start_paths.
  - intros ->. assert (S0 = S) as -> by congruence. done.
Qed.

(** X6: the DFA has at most 2^n states, for the n NFA states that are the
    start state or the target of a transition. *)
Theorem dfa_states_bound (nfa : NFA) (b : build PS) :
  reachable nfa b →
  (length (dfa_states b) ≤ 2 ^ size (nfa_states nfa))%nat.
Proof.
  intros Hr. pose proof (reachable_states_inv _ _ Hr) as Hs.
  pose proof (reachable_inv _ _ Hr) as Hinv.
  assert (NoDup (elems <$> dfa_states b)) as Hnd.
  { apply NoDup_alt. intros i j T Hi Hj.
    rewrite list_lookup_fmap in Hi, Hj.
    destruct (dfa_states b !! i) as [Si|] eqn:HSi; [|done].
    destruct (dfa_states b !! j) as [Sj|] eqn:HSj; [|done].
    simpl in Hi, Hj. simplify_eq.
    assert (state_mapping b !! elems Si = Some i) as H1
      by (apply (binv_mapping _ _ Hinv); eauto).
    assert (state_mapping b !! elems Si = Some j) as H2
      by (apply (binv_mapping _ _ Hinv); eauto).
    congruence. }
  assert (list_to_set (elems <$> dfa_states b)
          ⊆ subsets_of (elements (nfa_states nfa))) as Hsub.
  { intros T HT. apply elem_of_list_to_set, list_elem_of_fmap in HT
      as (S & -> & HS).
    apply list_elem_of_lookup in HS as [i Hi].
    apply elem_of_subsets_of. intros x Hx.
    apply elem_of_list_to_set, elem_of_elements.
    by eapply (sinv_states _ _ Hs). }
  apply subseteq_size in Hsub. rewrite size_list_to_set in Hsub by done.
  rewrite length_fmap in Hsub. etrans; [exact Hsub|].
  etrans; [apply size_subsets_of|].
  assert (length (elements (nfa_states nfa)) = size (nfa_states nfa)) as ->
    by done.
  done.
Qed.

(** X7: an NFA without accept states gives a DFA without accept states. *)
Theorem no_accept_states (nfa : NFA) (b : build PS) :
  reachable nfa b → nfa_accept nfa = ∅ → dfa_accept b = [].
Proof.
  intros Hr Hempty. pose proof (reachable_inv _ _ Hr) as Hinv.
  destruct (dfa_accept b) as [|[i label] acc] eqn:Hacc; [done|].
  exfalso.
  assert (dict_get i (dfa_accept b) = Some label) as Hget
    by (rewrite Hacc; simpl; by rewrite decide_True).
  destruct (decide (i < length (dfa_states b))%nat) as [Hi|Hi].
  - destruct (lookup_lt_is_Some_2 _ _ Hi) as [S HS].
    rewrite (binv_accept _ _ Hinv i S HS) in Hget.
    destruct (decide _) as [Hne|]; [|done].
    apply Hne. unfold accepting. rewrite Hempty, dom_empty_L. set_solver.
  - rewrite (binv_accept_fresh _ _ Hinv i) in Hget; [done|lia].
Qed.

(** X8: when no state of the epsilon closure of the start state has a
    transition on a symbol of the alphabet (so also when the alphabet is
    empty), the construction returns after one iteration with a single
    state and no transition. *)
Theorem single_state_dfa (nfa : NFA) (alphabet : list string) (fuel : nat) :
  (∀ q a, rtc (eps_step nfa) (nfa_start nfa) q → a ∈ alphabet →
          targets nfa q (Some a) = []) →
  (1 ≤ fuel)%nat →
  ∃ b, subset_construction nfa alphabet fuel = Some b
       ∧ length (dfa_states b) = 1%nat
       ∧ dfa_transitions b = []
       ∧ convert_nfa_to_dfa nfa alphabet fuel
         = Some {| dfa_trans := []; dfa_start := 0;
                   dfa_acc := dfa_accept (initial_build nfa) |}.
Proof.
  intros Hnone Hfuel.
  pose proof (initial_states_inv nfa) as Hs.
  destruct (sinv_start _ _ Hs) as (S0 & Hl0 & HS0).
  assert (∀ symbols,
            (∀ a, a ∈ symbols → a ∈ alphabet) →
            fold_left (process_symbol nfa 0 S0) symbols
              (popleft [] (initial_build nfa))
            = popleft [] (initial_build nfa)) as Hfold.
  { induction symbols as [|a symbols IH]; intros Hsub; [done|]. simpl.
    destruct (process_symbol_cases nfa 0 S0 (popleft [] (initial_build nfa)) a)
      as [[_ ->]|(Hne & _)].
    - apply IH. intros c Hc. apply Hsub. by right.
    - exfalso. apply Hne. apply set_eq. intros x. split; [|set_solver].
      intros (q & Hq & Hx)%elem_of_move_union.
      rewrite (Hnone q a) in Hx; [by apply elem_of_nil in Hx|by apply HS0|].
      apply Hsub. by left. }
  exists (popleft [] (initial_build nfa)).
  assert (subset_construction nfa alphabet fuel
          = Some (popleft [] (initial_build nfa))) as Hrun.
  { unfold subset_construction. destruct fuel as [|fuel]; [lia|].
    change (construction_loop nfa alphabet (S fuel) (initial_build nfa))
      with (match dfa_states (initial_build nfa) !! 0%nat with
            | None => None
            | Some current_state_set =>
                construction_loop nfa alphabet fuel
                  (fold_left (process_symbol nfa 0 current_state_set) alphabet
                             (popleft [] (initial_build nfa)))
            end).
    rewrite Hl0, (Hfold alphabet) by done. by destruct fuel. }
  split; [done|]. split; [done|]. split; [done|].
  unfold convert_nfa_to_dfa. by rewrite Hrun.
Qed.

End conversion_facts.

(** ** How the closure and the move compose *)

Section closure_algebra.
Context `{PS : PySet}.

(** X9: the epsilon closure of a union is the union of the closures, so the
    closure grows with its argument; the closure of the empty set is empty;
    and a set none of whose states has an epsilon transition is its own
    closure. *)
Theorem epsilon_closure_union (nfa : NFA) (S T U : pyset) :
  (elems U = elems S ∪ elems T →
   elems (epsilon_closure nfa U)
   = elems (epsilon_closure nfa S) ∪ elems (epsilon_closure nfa T))
  ∧ (elems S ⊆ elems T →
     elems (epsilon_closure nfa S) ⊆ elems (epsilon_closure nfa T))
  ∧ (elems S = ∅ → elems (epsilon_closure nfa S) = ∅)
  ∧ ((∀ s, s ∈ elems S → targets nfa s None = []) →
     elems (epsilon_closure nfa S) = elems S).
Proof.
  split; [|split; [|split]].
  - intros HU. apply set_eq. intros x.
    rewrite elem_of_union, !elem_of_epsilon_closure, HU. unfold eps_reach.
    setoid_rewrite elem_of_union. naive_solver.
  - intros Hsub x. rewrite !elem_of_epsilon_closure. unfold eps_reach.
    intros (s & Hs & Hrtc). exists s. split; [auto|done].
  - intros Hempty. apply set_eq. intros x.
    rewrite elem_of_epsilon_closure, Hempty. unfold eps_reach. set_solver.
  - intros Hnone. apply set_eq. intros x. split;
      [|apply epsilon_closure_extensive].
    rewrite elem_of_epsilon_closure.
    apply eps_closed_reach; [done|].
    intros s y Hs Hstep. unfold eps_step in Hstep.
    rewrite (Hnone s Hs) in Hstep. by apply elem_of_nil in Hstep.
Qed.

(** X10: the move of a union is the union of the moves, so the move grows
    with its argument; the move of the empty set is empty; and every state
    of a move is the target of a transition on the symbol from a state of
    the set. *)
Theorem move_nfa_union_of_sets (nfa : NFA) (S T U : pyset) (symbol : string) :
  (elems U = elems S ∪ elems T →
   elems (move_nfa nfa U symbol)
   = elems (move_nfa nfa S symbol) ∪ elems (move_nfa nfa T symbol))
  ∧ (elems S ⊆ elems T →
     elems (move_nfa nfa S symbol) ⊆ elems (move_nfa nfa T symbol))
  ∧ (elems S = ∅ → elems (move_nfa nfa S symbol) = ∅)
  ∧ (∀ x, x ∈ elems (move_nfa nfa S symbol) →
          ∃ s tos, s ∈ elems S
                   ∧ nfa_transitions nfa !! (s, Some symbol) = Some tos
                   ∧ x ∈ tos).
Proof.
  split; [|split; [|split]].
  - intros HU. apply set_eq. intros x.
    rewrite elem_of_union, !elem_of_move_nfa, HU.
    setoid_rewrite elem_of_union. naive_solver.
  - intros Hsub x. rewrite !elem_of_move_nfa.
    intros (s & Hs & Hx). exists s. split; [auto|done].
  - intros Hempty. apply set_eq. intros x.
    rewrite elem_of_move_nfa, Hempty. set_solver.
  - intros x (s & Hs & Hx)%elem_of_move_nfa. unfold targets in Hx.
    destruct (nfa_transitions nfa !! (s, Some symbol)) as [tos|] eqn:Htos;
      [|by apply elem_of_nil in Hx].
    by exists s, tos.
Qed.

End closure_algebra.

(** ** The properties at concrete runs *)

Lemma run_build_spec `{PS : PySet} nfa alphabet fuel :
  (if subset_construction nfa alphabet fuel is Some _ then true else false)
  = true →
  subset_construction nfa alphabet fuel
  = Some (run_build nfa alphabet fuel).
Proof.
  unfold run_build. by destruct (subset_construction nfa alphabet fuel).
Qed.

Lemma sample_run :
  subset_construction (PS:=InsertionSet) sample_nfa ["a"; "b"] 3
  = Some (run_build sample_nfa ["a"; "b"] 3).
Proof. apply run_build_spec. vm_compute. reflexivity. Qed.

Lemma sample_word : Forall (λ a : string, a ∈ ["a"; "b"]) ["a"; "b"].
Proof. repeat constructor. Qed.

Lemma subset_construction_simulates_witness :
  ∃ S : @pyset InsertionSet,
    dfa_states (run_build sample_nfa ["a"; "b"] 3) !! 2%nat = Some S
    ∧ ∀ x, x ∈ elems S
           ↔ nfa_path sample_nfa (nfa_start sample_nfa) ["a"; "b"] x.
Proof.
  pose proof (subset_construction_simulates (PS:=InsertionSet) sample_nfa
                ["a"; "b"] 3 _ ["a"; "b"] sample_run sample_word) as H.
  assert (dfa_run (dfa_transitions
                     (run_build (PS:=InsertionSet) sample_nfa ["a"; "b"] 3))
            0 ["a"; "b"] = Some 2%nat) as Hrun by (vm_compute; reflexivity).
  rewrite Hrun in H. exact H.
Defined.

Lemma convert_preserves_language_witness :
  dfa_accepts {| dfa_trans := [((0%nat, "a"), 1%nat); ((1%nat, "b"), 2%nat)];
                 dfa_start := 0;
                 dfa_acc := [(2%nat, "accept")] |} ["a"; "b"]
  ↔ nfa_accepts sample_nfa ["a"; "b"].
Proof.
  apply (convert_preserves_language (PS:=InsertionSet) sample_nfa
           ["a"; "b"] 3).
  - vm_compute. reflexivity.
  - apply sample_word.
Defined.

Lemma transitions_sound_and_complete_witness :
  (∀ j, dict_get (1%nat, "a")
          (dfa_transitions
             (run_build (PS:=InsertionSet) sample_nfa ["a"; "b"] 3)) = Some j →
        "a" ∈ ["a"; "b"]
        ∧ move_union sample_nfa (elems ([2; 3] : @pyset InsertionSet)) "a" ≠ ∅
        ∧ ∃ S' : @pyset InsertionSet,
            dfa_states (run_build sample_nfa ["a"; "b"] 3) !! j = Some S'
            ∧ ∀ x, x ∈ elems S'
                   ↔ eps_reach sample_nfa
                       (move_union sample_nfa
                          (elems ([2; 3] : @pyset InsertionSet)) "a") x)
  ∧ ("a" ∈ ["a"; "b"] →
     dict_get (1%nat, "a")
       (dfa_transitions (run_build (PS:=InsertionSet) sample_nfa ["a"; "b"] 3))
     = None →
     move_union sample_nfa (elems ([2; 3] : @pyset InsertionSet)) "a" = ∅).
Proof.
  apply (transitions_sound_and_complete (PS:=InsertionSet) sample_nfa
           ["a"; "b"] 3 _ 1 [2; 3] "a").
  - apply sample_run.
  - vm_compute. reflexivity.
Defined.

Lemma dfa_well_formed_witness :
  NoDup (map fst (dfa_transitions
                    (run_build (PS:=InsertionSet) sample_nfa ["a"; "b"] 3))).
Proof.
  apply (dfa_well_formed (PS:=InsertionSet) sample_nfa
           (run_build sample_nfa ["a"; "b"] 3)).
  apply run_build_reachable.
Defined.

Lemma dfa_states_accessible_witness :
  elems ([2; 3] : @pyset InsertionSet) ≠ ∅
  ∧ eps_closed sample_nfa (elems ([2; 3] : @pyset InsertionSet)).
Proof.
  pose proof (dfa_states_accessible (PS:=InsertionSet) sample_nfa
                (run_build sample_nfa ["a"; "b"] 3) 1 [2; 3]
                (run_build_reachable _ _ _)) as H.
  destruct H as (H1 & H2 & _); [vm_compute; reflexivity|]. by split.
Defined.

Lemma dfa_states_bound_witness :
  (length (dfa_states (run_build (PS:=InsertionSet) sample_nfa ["a"; "b"] 3))
   ≤ 2 ^ size (nfa_states sample_nfa))%nat.
Proof.
  apply (dfa_states_bound (PS:=InsertionSet) sample_nfa).
  apply run_build_reachable.
Defined.

Lemma no_accept_states_witness :
  dfa_accept (run_build (PS:=InsertionSet) plain_nfa ["a"; "b"] 3) = [].
Proof.
  apply (no_accept_states (PS:=InsertionSet) plain_nfa).
  - apply run_build_reachable.
  - reflexivity.
Defined.

Lemma single_state_dfa_witness :
  ∃ b : build InsertionSet,
    subset_construction sample_nfa [] 1 = Some b
    ∧ length (dfa_states b) = 1%nat
    ∧ dfa_transitions b = []
    ∧ convert_nfa_to_dfa sample_nfa [] 1
      = Some {| dfa_trans := []; dfa_start := 0;
                dfa_acc := dfa_accept (initial_build sample_nfa) |}.
Proof.
  apply (single_state_dfa (PS:=InsertionSet) sample_nfa [] 1).
  - intros q a _ Ha. by apply elem_of_nil in Ha.
  - lia.
Defined.

Lemma epsilon_closure_union_witness :
  elems (epsilon_closure (PS:=InsertionSet) sample_nfa [0; 2])
  = elems (epsilon_closure (PS:=InsertionSet) sample_nfa [0])
    ∪ elems (epsilon_closure (PS:=InsertionSet) sample_nfa [2]).
Proof.
  apply (proj1 (epsilon_closure_union (PS:=InsertionSet) sample_nfa
                  [0] [2] [0; 2])).
  simpl. set_solver.
Defined.

Lemma move_nfa_union_of_sets_witness :
  elems (move_nfa (PS:=InsertionSet) sample_nfa [1; 3] "a")
  = elems (move_nfa (PS:=InsertionSet) sample_nfa [1] "a")
    ∪ elems (move_nfa (PS:=InsertionSet) sample_nfa [3] "a").
Proof.
  apply (proj1 (move_nfa_union_of_sets (PS:=InsertionSet) sample_nfa
                  [1] [3] [1; 3] "a")).
  simpl. set_solver.
Defined.

(** * The other functions of [nfa_dfa_conversion.py] *)

(** ** get_alphabet_from_transitions *)

Lemma ascii_compare_lt_trans a b c :
  Ascii.compare a b = Lt → Ascii.compare b c = Lt → Ascii.compare a c = Lt.
Proof.
  unfold Ascii.compare. rewrite !N.compare_lt_iff. apply N.lt_trans.
Qed.

Lemma string_compare_lt_trans s t u :
  String.compare s t = Lt → String.compare t u = Lt → String.compare s u = Lt.
Proof.
  revert t u. induction s as [|a s IH]; intros [|b t] [|c u]; simpl;
    try done.
  destruct (Ascii.compare a b) eqn:Hab; try done;
    destruct (Ascii.compare b c) eqn:Hbc; try done.
  - apply Ascii.compare_eq_iff in Hab as ->.
    apply Ascii.compare_eq_iff in Hbc as ->.
    assert (Ascii.compare c c = Eq) as ->; [|apply IH].
    unfold Ascii.compare. apply N.compare_refl.
  - apply Ascii.compare_eq_iff in Hab as ->. by rewrite Hbc.
  - apply Ascii.compare_eq_iff in Hbc as ->. by rewrite Hab.
  - by rewrite (ascii_compare_lt_trans a b c).
Qed.

#[export] Instance str_le_trans : Transitive str_le.
Proof.
  intros s t u. unfold str_le, String.leb.
  destruct (String.compare s t) eqn:Hst; [|
    |done].
  - apply String.compare_eq_iff in Hst as ->. done.
  - destruct (String.compare t u) eqn:Htu; [| |done].
    + apply String.compare_eq_iff in Htu as ->. by rewrite Hst.
    + by rewrite (string_compare_lt_trans s t u).
Qed.

#[export] Instance str_le_total : Total str_le.
Proof. intros s t. apply String.leb_total. Qed.

#[export] Instance str_le_antisym : AntiSymm (=) str_le.
Proof. intros s t. apply String.leb_antisym. Qed.

Lemma elem_of_alphabet_set {V} (transitions : gmap (Z * option string) V) a :
  a ∈ alphabet_set transitions
  ↔ ∃ state, is_Some (transitions !! (state, Some a)).
Proof.
  unfold alphabet_set. rewrite elem_of_list_to_set, list_elem_of_omap. split.
  - intros ([[state symbol] v] & Hin & Hsym). simpl in Hsym. subst symbol.
    apply elem_of_map_to_list in Hin. exists state. by eexists.
  - intros (state & v & Hv). exists ((state, Some a), v). split; [|done].
    by apply elem_of_map_to_list.
Qed.

Lemma elem_of_get_alphabet {V} (transitions : gmap (Z * option string) V) a :
  a ∈ get_alphabet_from_transitions transitions
  ↔ ∃ state, is_Some (transitions !! (state, Some a)).
Proof.
  unfold get_alphabet_from_transitions, py_sorted.
  rewrite merge_sort_Permutation, elem_of_elements.
  apply elem_of_alphabet_set.
Qed.

(** X11: the alphabet is the list of the symbols other than epsilon that
    occur in a key of the table, each once, in strictly ascending order of
    Python's order on strings, in whatever order the set of symbols
    iterates. *)
Theorem alphabet_sorted {V} (transitions : gmap (Z * option string) V) :
  (∀ a, a ∈ get_alphabet_from_transitions transitions
        ↔ ∃ state, is_Some (transitions !! (state, Some a)))
  ∧ NoDup (get_alphabet_from_transitions transitions)
  ∧ StronglySorted (λ s t, str_le s t ∧ s ≠ t)
      (get_alphabet_from_transitions transitions)
  ∧ (∀ l, l ≡ₚ elements (alphabet_set transitions) →
          py_sorted l = get_alphabet_from_transitions transitions).
Proof.
  split; [|unfold get_alphabet_from_transitions, py_sorted].
  { intros a. apply (elem_of_get_alphabet transitions). }
  assert (NoDup (merge_sort str_le (elements (alphabet_set transitions))))
    as Hnd by (rewrite merge_sort_Permutation; apply NoDup_elements).
  split; [done|split].
  - pose proof (StronglySorted_merge_sort str_le
                  (elements (alphabet_set transitions))) as Hs.
    revert Hs Hnd.
    generalize (merge_sort str_le (elements (alphabet_set transitions))).
    induction 1 as [|a l Hs IH Hall]; intros Hnd; constructor.
    + apply IH. by apply NoDup_cons in Hnd as [_ ?].
    + apply NoDup_cons in Hnd as [Ha _].
      apply Forall_forall. intros x Hx. split.
      * by eapply Forall_forall in Hall.
      * intros ->. done.
  - intros l Hl. apply (Sorted_unique str_le).
    + apply Sorted_merge_sort, _.
    + apply Sorted_merge_sort, _.
    + by rewrite !merge_sort_Permutation.
Qed.

(** ** write_dfa_to_csv *)

Lemma digit_not_space c : is_digit c = true → py_isspace c = false.
Proof.
  unfold is_digit, py_isspace. generalize (nat_of_ascii c). intros n Hn.
  apply andb_true_iff in Hn as [H1%Nat.leb_le H2%Nat.leb_le].
  repeat (apply orb_false_iff; split); try apply andb_false_iff;
    rewrite ?Nat.leb_gt, ?Nat.eqb_neq; lia.
Qed.

Lemma rstrip_no_space s :
  Forall (λ c, py_isspace c = false) (list_ascii_of_string s) → rstrip s = s.
Proof.
  induction s as [|c s IH]; intros Hall; [done|]. simpl in *.
  apply Forall_cons in Hall as [Hc Hall]. rewrite (IH Hall).
  destruct s; [by rewrite Hc|done].
Qed.

Lemma lstrip_no_space s :
  Forall (λ c, py_isspace c = false) (list_ascii_of_string s) → lstrip s = s.
Proof.
  destruct s as [|c s]; [done|]. simpl. intros [Hc _]%Forall_cons.
  by rewrite Hc.
Qed.

Lemma strip_no_space s :
  Forall (λ c, py_isspace c = false) (list_ascii_of_string s) → strip s = s.
Proof.
  intros Hall. unfold strip. by rewrite lstrip_no_space, rstrip_no_space.
Qed.

Lemma string_of_uint_digits d :
  all_digits (DecimalString.NilEmpty.string_of_uint d).
Proof. unfold all_digits. induction d; simpl; by constructor. Qed.

Lemma int_digits_uint d acc :
  int_digits (DecimalString.NilEmpty.string_of_uint d) (Z.of_nat acc) true
  = Some (Z.of_nat (Nat.of_uint_acc d acc)).
Proof.
  revert acc. induction d as [|d IH|d IH|d IH|d IH|d IH|d IH|d IH|d IH|d IH|d IH];
    intros acc; [done|..]; cbn [DecimalString.NilEmpty.string_of_uint int_digits
                                   Nat.of_uint_acc];
    change (is_digit _) with true; cbn match;
    rewrite <- IH; f_equal; rewrite Nat.tail_mul_spec;
    unfold digit_value;
    match goal with
    | |- context [nat_of_ascii ?c] =>
        let v := eval vm_compute in (nat_of_ascii c) in
        change (nat_of_ascii c) with v
    end; lia.
Qed.

Lemma int_digits_uint_start d :
  d ≠ Decimal.Nil →
  int_digits (DecimalString.NilEmpty.string_of_uint d) 0 false
  = Some (Z.of_nat (Nat.of_uint d)).
Proof.
  intros Hd. unfold Nat.of_uint.
  destruct d; [done|..];
    cbn [DecimalString.NilEmpty.string_of_uint int_digits Nat.of_uint_acc];
    change (is_digit _) with true; cbn match;
    rewrite <- int_digits_uint; f_equal.
Qed.

Lemma to_uint_nonnil n : Nat.to_uint n ≠ Decimal.Nil.
Proof.
  intros Hn. pose proof (DecimalNat.Unsigned.of_to n) as Hof.
  rewrite Hn in Hof. simpl in Hof. subst n. done.
Qed.

(** [int(str(n))] is [n]. *)
Lemma py_int_str_nat n : py_int (py_str_nat n) = Some (Z.of_nat n).
Proof.
  unfold py_str_nat, DecimalString.NilZero.string_of_uint.
  pose proof (to_uint_nonnil n) as Hnn.
  pose proof (DecimalNat.Unsigned.of_to n) as Hof.
  destruct (Nat.to_uint n) as [|d|d|d|d|d|d|d|d|d|d] eqn:Hd; [done|..];
    rewrite <- Hd in *; clear Hd;
    (unfold py_int; rewrite strip_no_space;
     [|eapply Forall_impl; [apply string_of_uint_digits|];
       apply digit_not_space]);
    pose proof (int_digits_uint_start _ Hnn) as Hi; rewrite Hof in Hi;
    destruct (Nat.to_uint n); try done.
Qed.

Lemma strip_plain_symbol a : plain_symbol a → first_symbol (strip a) = Some a.
Proof.
  intros (c & -> & Hc). unfold strip. simpl. rewrite Hc. simpl.
  by rewrite Hc.
Qed.

Lemma row_targets_nil key : row_targets key [] = [].
Proof. done. Qed.

Lemma row_targets_cons key row rows :
  row_targets key (row :: rows)
  = match row_transition row with
    | Some (k, to) =>
        if decide (k = key) then to :: row_targets key rows
        else row_targets key rows
    | None => row_targets key rows
    end.
Proof.
  unfold row_targets. cbn [omap list_omap].
  destruct (row_transition row) as [[k to]|]; [|done].
  by destruct (decide (k = key)).
Qed.

Lemma written_row_transition i a j :
  plain_symbol a →
  row_transition [py_str_nat i; a; py_str_nat j]
  = Some ((Z.of_nat i, Some a), Z.of_nat j).
Proof.
  intros Ha. unfold row_transition. rewrite !py_int_str_nat. simpl.
  by rewrite strip_plain_symbol.
Qed.

Lemma written_rows_targets key (table : list ((nat * string) * nat)) :
  (∀ i a j, ((i, a), j) ∈ table → plain_symbol a) →
  row_targets key
    (map (λ entry, [py_str_nat entry.1.1; entry.1.2; py_str_nat entry.2]) table)
  = omap (λ entry, if decide ((Z.of_nat entry.1.1, Some entry.1.2) = key)
                   then Some (Z.of_nat entry.2) else None) table.
Proof.
  induction table as [|[[i a] j] table IH]; intros Hplain; [done|].
  cbn [map]. rewrite row_targets_cons. cbn [fst snd omap list_omap].
  rewrite written_row_transition by (eapply Hplain; by left).
  rewrite IH by (intros ? ? ? ?; eapply Hplain; by right).
  by destruct (decide _).
Qed.

(** What the reader holds under a key after the rows of a table. *)
Lemma written_lookup (dfa : DFA) key :
  (∀ i a j, ((i, a), j) ∈ dfa_trans dfa → plain_symbol a) →
  read_nfa_transitions_csv (write_dfa_to_csv dfa) !! key
  = match omap (λ entry,
            if decide ((Z.of_nat entry.1.1, Some entry.1.2) = key)
            then Some (Z.of_nat entry.2) else None)
          (dfa_trans dfa) with
    | [] => None
    | tos => Some tos
    end.
Proof.
  intros Hplain. unfold read_nfa_transitions_csv. rewrite read_rows_lookup.
  rewrite lookup_empty. unfold write_dfa_to_csv. rewrite row_targets_cons.
  change (row_transition ["From"; "Input"; "To"]) with
    (@None ((Z * option string) * Z)).
  rewrite written_rows_targets by done. by destruct (omap _ _).
Qed.

Lemma written_lookup_key (dfa : DFA) i a :
  NoDup (map fst (dfa_trans dfa)) →
  (∀ i a j, ((i, a), j) ∈ dfa_trans dfa → plain_symbol a) →
  read_nfa_transitions_csv (write_dfa_to_csv dfa) !! (Z.of_nat i, Some a)
  = (λ j, [Z.of_nat j]) <$> dict_get (i, a) (dfa_trans dfa).
Proof.
  intros Hnd Hplain. rewrite written_lookup by done. clear Hplain.
  induction (dfa_trans dfa) as [|[[i' a'] j'] table IH]; [done|].
  cbn [map fst] in Hnd. apply NoDup_cons in Hnd as [Hfresh Hnd].
  cbn [omap list_omap dict_get fst snd].
  destruct (decide ((i, a) = (i', a'))) as [[= <- <-]|Hne].
  - rewrite decide_True by done. simpl.
    assert (dict_get (i, a) table = None) as Hnone
      by by apply dict_get_None_keys.
    rewrite Hnone in IH. specialize (IH Hnd).
    destruct (omap _ table); [done|done].
  - rewrite decide_False; [by apply IH|].
    intros [= Hi%Nat2Z.inj ->]. by subst.
Qed.

Lemma written_lookup_dom (dfa : DFA) key :
  NoDup (map fst (dfa_trans dfa)) →
  (∀ i a j, ((i, a), j) ∈ dfa_trans dfa → plain_symbol a) →
  is_Some (read_nfa_transitions_csv (write_dfa_to_csv dfa) !! key) →
  ∃ i a, key = (Z.of_nat i, Some a)
         ∧ is_Some (dict_get (i, a) (dfa_trans dfa)).
Proof.
  intros Hnd Hplain. rewrite written_lookup by done. intros Hsome.
  destruct (omap _ (dfa_trans dfa)) as [|to tos] eqn:Hom; [by destruct Hsome|].
  assert (to ∈ omap (λ entry,
                if decide ((Z.of_nat entry.1.1, Some entry.1.2) = key)
                then Some (Z.of_nat entry.2) else None) (dfa_trans dfa))
    as Hin by (rewrite Hom; by left).
  apply list_elem_of_omap in Hin as ([[i a] j] & Hin & Hkey).
  simpl in Hkey. destruct (decide _) as [<-|]; [|done].
  exists i, a. split; [done|]. exists j. by apply dict_get_elem_of.
Qed.

(** X12: writing a DFA table and reading the rows back gives the table:
    under the key of a transition the reader holds its one target, and it
    holds no other key.  This needs what the conversion gives: no key twice,
    and symbols of one character that is not white space. *)
Theorem write_read_round_trip (dfa : DFA) :
  NoDup (map fst (dfa_trans dfa)) →
  (∀ i a j, ((i, a), j) ∈ dfa_trans dfa → plain_symbol a) →
  (∀ i a, read_nfa_transitions_csv (write_dfa_to_csv dfa)
            !! (Z.of_nat i, Some a)
          = (λ j, [Z.of_nat j]) <$> dict_get (i, a) (dfa_trans dfa))
  ∧ (∀ key, is_Some (read_nfa_transitions_csv (write_dfa_to_csv dfa) !! key) →
            ∃ i a, key = (Z.of_nat i, Some a)
                   ∧ is_Some (dict_get (i, a) (dfa_trans dfa))).
Proof.
  intros Hnd Hplain. split.
  - intros i a. by apply written_lookup_key.
  - intros key. by apply written_lookup_dom.
Qed.

(** ** The main program: read, convert, write *)

Lemma strip_head s c r : strip s = String c r → py_isspace c = false.
Proof.
  unfold strip. destruct (lstrip_head s) as [->|(c' & r' & -> & Hc')];
    [done|].
  cbn [rstrip]. destruct (rstrip r'); rewrite ?Hc'; by intros [= <- _].
Qed.

Lemma first_symbol_strip_plain s a :
  first_symbol (strip s) = Some a → plain_symbol a.
Proof.
  destruct (strip s) as [|c r] eqn:Hs; [done|]. intros [= <-].
  exists c. split; [done|]. by eapply strip_head.
Qed.

(** The reader stores one character that is not white space, or epsilon. *)
Lemma read_symbol_plain rows state a :
  is_Some (read_nfa_transitions_csv rows !! (state, Some a)) → plain_symbol a.
Proof.
  unfold read_nfa_transitions_csv. rewrite read_rows_lookup, lookup_empty.
  destruct (row_targets (state, Some a) rows) as [|to tos] eqn:Hts;
    [by intros [? ?]|].
  intros _.
  assert (to ∈ row_targets (state, Some a) rows) as Hin
    by (rewrite Hts; by left).
  apply list_elem_of_omap in Hin as (row & _ & Hrow).
  destruct (row_transition row) as [[k to']|] eqn:Hrt; [|done].
  destruct (decide (k = (state, Some a))) as [->|]; [|done].
  unfold row_transition in Hrt.
  destruct row as [|f [|i [|t [|? ?]]]]; try done.
  destruct (py_int f); [|done]. destruct (py_int t); [|done].
  simpl in Hrt. injection Hrt as _ Hsym _.
  by eapply first_symbol_strip_plain.
Qed.

Section main_program.
Context `{PS : PySet}.

(** The symbol of a DFA transition is the symbol of an NFA transition. *)
Lemma dfa_symbol_nfa_symbol nfa (b : build PS) i a j :
  reachable nfa b → ((i, a), j) ∈ dfa_transitions b →
  ∃ state, is_Some (nfa_transitions nfa !! (state, Some a)).
Proof.
  intros Hr Hin. pose proof (reachable_states_inv _ _ Hr) as Hs.
  apply dict_get_elem_of in Hin; [|apply (sinv_transition_keys _ _ Hs)].
  destruct (sinv_transitions _ _ Hs _ _ _ Hin) as (S & S' & _ & _ & Hne & _).
  apply set_choose_L in Hne as [x Hx].
  apply elem_of_move_union in Hx as (s & _ & Hx). exists s.
  unfold targets in Hx.
  destruct (nfa_transitions nfa !! (s, Some a)); [done|].
  by apply elem_of_nil in Hx.
Qed.

(** X13: with the alphabet taken from the transition table, as the main
    program does, the conversion returns a DFA that accepts exactly the
    words that the NFA accepts, whatever their symbols. *)
Theorem alphabet_from_transitions_preserves_language (nfa : NFA) :
  ∃ dfa,
    (∀ fuel, (construction_fuel nfa ≤ fuel)%nat →
       convert_nfa_to_dfa nfa
         (get_alphabet_from_transitions (nfa_transitions nfa)) fuel
       = Some dfa)
    ∧ ∀ w, dfa_accepts dfa w ↔ nfa_accepts nfa w.
Proof.
  destruct (subset_construction_terminates nfa
              (get_alphabet_from_transitions (nfa_transitions nfa)))
    as [b Hb].
  exists (dfa_of_build b).
  assert (∀ fuel, (construction_fuel nfa ≤ fuel)%nat →
            convert_nfa_to_dfa nfa
              (get_alphabet_from_transitions (nfa_transitions nfa)) fuel
            = Some (dfa_of_build b)) as Hconv.
  { intros fuel Hfuel. unfold convert_nfa_to_dfa. by rewrite Hb. }
  split; [done|]. intros w.
  apply (convert_language nfa
           (get_alphabet_from_transitions (nfa_transitions nfa))
           (construction_fuel nfa) (dfa_of_build b) w);
    [by apply Hconv|].
  apply Forall_forall. intros a _.
  destruct (decide (a ∈ get_alphabet_from_transitions (nfa_transitions nfa)))
    as [|Hnot]; [by left|right].
  intros q. unfold targets.
  destruct (nfa_transitions nfa !! (q, Some a)) as [tos|] eqn:Hq; [|done].
  exfalso. apply Hnot. apply elem_of_get_alphabet. exists q. by eexists.
Qed.

(** X14: the table that the main program writes reads back as it is: a
    second read of the written rows holds, under the key of each DFA
    transition, its one target, and holds no other key. *)
Theorem main_output_reads_back (rows : list (list string))
    (accept : gmap Z string) (fuel : nat) (dfa : DFA) :
  main_dfa rows accept fuel = Some dfa →
  (∀ i a, read_nfa_transitions_csv (write_dfa_to_csv dfa)
            !! (Z.of_nat i, Some a)
          = (λ j, [Z.of_nat j]) <$> dict_get (i, a) (dfa_trans dfa))
  ∧ (∀ key, is_Some (read_nfa_transitions_csv (write_dfa_to_csv dfa) !! key) →
            ∃ i a, key = (Z.of_nat i, Some a)
                   ∧ is_Some (dict_get (i, a) (dfa_trans dfa))).
Proof.
  unfold main_dfa, convert_nfa_to_dfa. intros Hmain.
  destruct (subset_construction _ _ fuel) as [b|] eqn:Hrun; [|done].
  simpl in Hmain. injection Hmain as <-.
  pose proof (subset_construction_reachable _ _ _ _ Hrun) as Hr.
  pose proof (reachable_states_inv _ _ Hr) as Hs.
  assert (∀ i a j, ((i, a), j) ∈ dfa_trans (dfa_of_build b) → plain_symbol a)
    as Hplain.
  { intros i a j Hin.
    destruct (dfa_symbol_nfa_symbol _ _ _ _ _ Hr Hin) as [state Hstate].
    exact (read_symbol_plain rows state a Hstate). }
  split.
  - intros i a. apply written_lookup_key; [|done].
    apply (sinv_transition_keys _ _ Hs).
  - intros key. apply written_lookup_dom; [|done].
    apply (sinv_transition_keys _ _ Hs).
Qed.

End main_program.

(** ** read_zigzin_states_types *)




(** ** jff_to_transitions_csv.py *)

Lemma elem_of_row_targets key rows to :
  to ∈ row_targets key rows
  ↔ ∃ row, row ∈ rows ∧ row_transition row = Some (key, to).
Proof.
  unfold row_targets. rewrite list_elem_of_omap. split.
  - intros (row & Hin & Hrow). exists row. split; [done|].
    destruct (row_transition row) as [[k to']|]; [|done].
    destruct (decide (k = key)) as [->|]; [|done]. by injection Hrow as ->.
  - intros (row & Hin & Hrow). exists row. split; [done|].
    rewrite Hrow. by rewrite decide_True.
Qed.

Lemma read_targets rows key to :
  to ∈ default [] (read_nfa_transitions_csv rows !! key)
  ↔ ∃ row, row ∈ rows ∧ row_transition row = Some (key, to).
Proof.
  unfold read_nfa_transitions_csv. rewrite read_rows_lookup, lookup_empty.
  rewrite <- elem_of_row_targets.
  by destruct (row_targets key rows).
Qed.

Lemma jff_rows_inputs from_state to_state read :
  map (map csv_field) (jff_transition_rows from_state to_state read)
  = map (λ x, [csv_field from_state; x; csv_field to_state])
      (jff_inputs read).
Proof.
  unfold jff_transition_rows, jff_inputs. destruct read as [r|]; [|done].
  destruct (decide (r = "")) as [->|Hne]; [done|].
  rewrite (decide_False (P:=Some r = None ∨ Some r = Some ""))
    by (intros [|[=]]; done).
  destruct (decide (r = "[0-9]")) as [->|H1]; [done|].
  rewrite (decide_False (P:=Some r = Some "[0-9]")) by congruence.
  destruct (decide (r = "[a-z]")) as [->|H2]; [done|].
  rewrite (decide_False (P:=Some r = Some "[a-z]")) by congruence.
  destruct (decide (r = "[A-Z]")) as [->|H3]; [done|].
  by rewrite (decide_False (P:=Some r = Some "[A-Z]")) by congruence.
Qed.

Lemma jff_inputs_symbols read :
  map (λ x, first_symbol (strip x)) (jff_inputs read) = jff_symbols read.
Proof.
  unfold jff_inputs, jff_symbols. destruct read as [r|]; [|done].
  repeat case_decide; done.
Qed.

Lemma elem_of_jff_rows jff row :
  row ∈ jff_to_transitions_csv jff
  ↔ row = ["From"; "Input"; "To"]
    ∨ ∃ f t r x, (f, t, r) ∈ jff ∧ x ∈ jff_inputs r
                 ∧ row = [csv_field f; x; csv_field t].
Proof.
  unfold jff_to_transitions_csv.
  rewrite elem_of_cons, list_elem_of_fmap.
  apply or_iff_compat_l. split.
  - intros (row' & -> & Hin).
    apply list_elem_of_bind in Hin as ([[f t] r] & Hrow & Hin).
    simpl in Hrow.
    assert (map csv_field row'
            ∈ map (map csv_field) (jff_transition_rows f t r)) as Hrow'
      by (apply list_elem_of_fmap; by exists row').
    rewrite jff_rows_inputs in Hrow'.
    apply list_elem_of_fmap in Hrow' as (x & -> & Hx). by exists f, t, r, x.
  - intros (f & t & r & x & Hin & Hx & ->).
    assert ([csv_field f; x; csv_field t]
            ∈ map (map csv_field) (jff_transition_rows f t r)) as Hrow.
    { rewrite jff_rows_inputs. apply list_elem_of_fmap. by exists x. }
    apply list_elem_of_fmap in Hrow as (row' & Heq & Hrow').
    exists row'. split; [done|].
    apply list_elem_of_bind. by exists (f, t, r).
Qed.

(** X16: the script and the reader together.  After the rows that the
    script writes for the transitions of a JFF file, the reader holds [q]
    among the targets of [(p, symbol)] exactly if some transition has texts
    that [int] reads as [p] and [q] and a label that stands for the symbol:
    a member of a known range, epsilon for no label or white space only,
    and else the first character of the stripped label, so that a range
    the script does not know is read as the symbol of its bracket. *)
Theorem jff_read_back
    (jff : list (option string * option string * option string))
    (p q : Z) (symbol : option string) :
  q ∈ default []
        (read_nfa_transitions_csv (jff_to_transitions_csv jff) !! (p, symbol))
  ↔ ∃ f t r, (f, t, r) ∈ jff
             ∧ py_int (csv_field f) = Some p
             ∧ py_int (csv_field t) = Some q
             ∧ symbol ∈ jff_symbols r.
Proof.
  rewrite read_targets. setoid_rewrite elem_of_jff_rows. split.
  - intros (row & [->|(f & t & r & x & Hin & Hx & ->)] & Hrow); [done|].
    exists f, t, r. unfold row_transition in Hrow.
    destruct (py_int (csv_field f)) as [p'|]; [|done].
    destruct (py_int (csv_field t)) as [q'|]; [|done].
    simpl in Hrow. injection Hrow as -> <- ->.
    repeat split; try done. rewrite <- jff_inputs_symbols.
    apply list_elem_of_fmap. by exists x.
  - intros (f & t & r & Hin & Hf & Ht & Hsym).
    rewrite <- jff_inputs_symbols in Hsym.
    apply list_elem_of_fmap in Hsym as (x & -> & Hx).
    exists [csv_field f; x; csv_field t]. split.
    + right. by exists f, t, r, x.
    + unfold row_transition. by rewrite Hf, Ht.
Qed.

(** ** The further properties at concrete inputs *)

Lemma write_read_round_trip_witness :
  read_nfa_transitions_csv (write_dfa_to_csv sample_dfa)
    !! (Z.of_nat 1, Some "b")
  = (λ j, [Z.of_nat j]) <$> dict_get (1%nat, "b") (dfa_trans sample_dfa).
Proof.
  refine (proj1 (write_read_round_trip sample_dfa _ _) 1%nat "b").
  - vm_compute. repeat constructor; set_solver.
  - intros i a j Hin. simpl in Hin.
    apply elem_of_cons in Hin as [[= _ -> _]|Hin].
    { exists "a"%char. by split. }
    apply list_elem_of_singleton in Hin as [= _ -> _].
    exists "b"%char. by split.
Defined.

Lemma main_output_reads_back_witness :
  read_nfa_transitions_csv (write_dfa_to_csv sample_dfa)
    !! (Z.of_nat 0, Some "a")
  = (λ j, [Z.of_nat j]) <$> dict_get (0%nat, "a") (dfa_trans sample_dfa).
Proof.
  refine (proj1 (main_output_reads_back (PS:=InsertionSet) sample_rows
                   {[ 4 := "accept" ]} 3 sample_dfa _) 0%nat "a").
  vm_compute. reflexivity.
Defined.

(** ** The symbols of a table that was read *)

(** X17: the reader never stores an empty list of targets, and the
    alphabet of a table that it has read consists of single characters that
    are not white space. *)
Theorem read_alphabet_plain (rows : list (list string)) :
  (∀ key tos, read_nfa_transitions_csv rows !! key = Some tos → tos ≠ [])
  ∧ Forall plain_symbol
      (get_alphabet_from_transitions (read_nfa_transitions_csv rows)).
Proof.
  split.
  - intros key tos. unfold read_nfa_transitions_csv.
    rewrite read_rows_lookup, lookup_empty.
    destruct (row_targets key rows); [done|]. by intros [= <-].
  - apply Forall_forall. intros a Ha.
    apply elem_of_get_alphabet in Ha as [state Hstate].
    by eapply read_symbol_plain.
Qed.

(** ** The order of discovery *)

Section discovery.
Context `{PS : PySet}.

Lemma process_symbol_discovery nfa current_index current_state_set b a :
  dfa_states b !! current_index = Some current_state_set →
  build_inv nfa b → states_inv nfa b → discovery_order b →
  discovery_order (process_symbol nfa current_index current_state_set b a).
Proof.
  intros Hcur Hinv Hs Hord j Hj.
  pose proof (λ k v, process_symbol_transitions nfa current_index
                       current_state_set b a k v Hcur Hinv Hs) as Hmono.
  destruct (process_symbol_cases nfa current_index current_state_set b a)
    as [[_ Heq]|(Hne & nc & j' & Hnc & Htr & Hcase)].
  { rewrite Heq in *. by apply Hord. }
  destruct (decide (j < length (dfa_states b))%nat) as [Hold|Hnew].
  - destruct (Hord j) as (i & c & Hi & Hget); [lia|].
    exists i, c. split; [done|]. by apply Hmono.
  - destruct Hcase as [(_ & Hds & _)|(_ & -> & Hds & _)];
      rewrite Hds in Hj; [lia|].
    rewrite length_app in Hj. simpl in Hj.
    assert (j = length (dfa_states b)) as -> by lia.
    exists current_index, a. split; [by eapply lookup_lt_Some|].
    rewrite Htr, dict_get_set. by rewrite decide_True.
Qed.

(** X18: state ids follow the order of discovery: at every point of a run,
    every state but state 0 is the target of a transition from a state with
    a smaller id. *)
Theorem states_in_discovery_order (nfa : NFA) (b : build PS) (j : nat) :
  reachable nfa b → (0 < j < length (dfa_states b))%nat →
  ∃ i a, (i < j)%nat ∧ dict_get (i, a) (dfa_transitions b) = Some j.
Proof.
  unfold reachable. intros Hr.
  enough (build_inv nfa b ∧ states_inv nfa b ∧ discovery_order b)
    as (_ & _ & Hord) by apply Hord.
  eapply (rtc_ind_r (λ b, build_inv nfa b ∧ states_inv nfa b
                          ∧ discovery_order b)
            (initial_build nfa)); [| |exact Hr].
  - split; [apply initial_build_inv|]. split; [apply initial_states_inv|].
    intros i Hi. simpl in Hi. lia.
  - intros y z _ Hstep (Hy1 & Hy2 & Hy3).
    split; [by eapply build_step_inv|].
    split; [by eapply build_step_states_inv|].
    destruct Hstep as [? ? ? Hq|? ? ? ? Hl]; [done|].
    by eapply process_symbol_discovery.
Qed.

End discovery.

Lemma states_in_discovery_order_witness :
  ∃ i a, (i < 2)%nat
         ∧ dict_get (i, a)
             (dfa_transitions
                (run_build (PS:=InsertionSet) sample_nfa ["a"; "b"] 3))
           = Some 2%nat.
Proof.
  apply (states_in_discovery_order (PS:=InsertionSet) sample_nfa).
  - apply run_build_reachable.
  - vm_compute. lia.
Defined.
